(** * FM-index over a sentinel-separated text: embedding of [fmindex.py]

    The Python module builds a suffix array, the Burrows-Wheeler transform,
    the table of lexicographically lower symbols and a rank structure, and
    answers substring and prefix-overlap queries by backward search.

    Python integers are [Z]; a [str] is a [list ascii]; a [dict] is an
    association list in insertion order; an operation that can raise is a
    computation in the [result] monad. *)

From Stdlib Require Import List ZArith Ascii String Bool Lia Permutation Sorted.
Import ListNotations.
Open Scope Z_scope.

(** ** Exceptions *)

(** [IndexError] is what indexing a sequence out of range raises.
    [InvalidInputError] is the error kind the spec gives to index
    construction; the source has no raise statement for it. *)
Inductive exn : Type :=
| IndexError
| InvalidInputError.

Inductive result (A : Type) : Type :=
| Ok (a : A)
| Raise (e : exn).
Arguments Ok {A} a.
Arguments Raise {A} e.

Definition bind {A B : Type} (m : result A) (k : A -> result B) : result B :=
  match m with
  | Ok a => k a
  | Raise e => Raise e
  end.

Notation "x <- m ;; k" := (bind m (fun x => k))
  (at level 61, m at next level, right associativity).

Fixpoint mapM {A B : Type} (f : A -> result B) (l : list A) : result (list B) :=
  match l with
  | [] => Ok []
  | x :: l' => y <- f x ;; ys <- mapM f l' ;; Ok (y :: ys)
  end.

(** [[x for x in l if f x]] where the test itself may raise. *)
Fixpoint filterM {A : Type} (f : A -> result bool) (l : list A) : result (list A) :=
  match l with
  | [] => Ok []
  | x :: l' =>
      b <- f x ;; xs <- filterM f l' ;; Ok (if b then x :: xs else xs)
  end.

(** ** Python sequences *)

Definition str : Type := list ascii.

Definition chars (x : string) : str := list_ascii_of_string x.

Definition ord (c : ascii) : Z := Z.of_N (N_of_ascii c).

Definition len {A : Type} (l : list A) : Z := Z.of_nat (List.length l).

(** [l[i]]: a negative index counts from the end; out of range raises. *)
Definition getitem {A : Type} (l : list A) (i : Z) : result A :=
  let j := if i <? 0 then i + len l else i in
  if (0 <=? j) && (j <? len l)
  then match nth_error l (Z.to_nat j) with
       | Some a => Ok a
       | None => Raise IndexError
       end
  else Raise IndexError.

(** Bound of a slice, as Python clamps it. *)
Definition slice_bound (n i : Z) : Z :=
  if i <? 0 then Z.max (i + n) 0 else Z.min i n.

(** [l[a:b]]. *)
Definition slice {A : Type} (l : list A) (a b : Z) : list A :=
  let a' := slice_bound (len l) a in
  let b' := slice_bound (len l) b in
  firstn (Z.to_nat (b' - a')) (skipn (Z.to_nat a') l).

(** [l[a:]]. *)
Definition slice_from {A : Type} (l : list A) (a : Z) : list A :=
  skipn (Z.to_nat (slice_bound (len l) a)) l.

(** [range(a, b)]. *)
Definition range (a b : Z) : list Z :=
  map (fun k => a + Z.of_nat k) (seq 0 (Z.to_nat (b - a))).

(** Order of [str]: symbol by symbol on code points, a proper prefix first. *)
Fixpoint str_leb (x y : str) : bool :=
  match x, y with
  | [], _ => true
  | _ :: _, [] => false
  | a :: x', b :: y' =>
      if ord a <? ord b then true
      else if ord b <? ord a then false
      else str_leb x' y'
  end.

(** ** [sorted]: a stable sort *)

Section Sorting.
Context {A : Type} (leb : A -> A -> bool).

Fixpoint insert (x : A) (l : list A) : list A :=
  match l with
  | [] => [x]
  | y :: l' => if leb x y then x :: l else y :: insert x l'
  end.

Definition sorted (l : list A) : list A := fold_right insert [] l.
End Sorting.

(** ** Dictionaries *)

Section Dict.
Context {V : Type}.

Definition dict : Type := list (ascii * V).

Fixpoint dict_get (d : dict) (k : ascii) : option V :=
  match d with
  | [] => None
  | (k', v) :: d' => if Ascii.eqb k' k then Some v else dict_get d' k
  end.

(** [d[k] = v]: an existing key keeps its place. *)
Fixpoint dict_set (d : dict) (k : ascii) (v : V) : dict :=
  match d with
  | [] => [(k, v)]
  | (k', v') :: d' =>
      if Ascii.eqb k' k then (k', v) :: d' else (k', v') :: dict_set d' k v
  end.

Definition keys (d : dict) : list ascii := map fst d.
Definition values (d : dict) : list V := map snd d.
End Dict.
Arguments dict V : clear implicits.

(** One step of [Counter(letters)]: [d[c] += 1], a missing key counting 0. *)
Definition tally (d : dict Z) (c : ascii) : dict Z :=
  dict_set d c (match dict_get d c with Some v => v | None => 0 end + 1).

(** [Counter(letters)]: every symbol counted, keys in order of first
    occurrence. *)
Definition Counter (letters : str) : dict Z := fold_left tally letters [].

(** Order of the [(key, value)] tuples. *)
Definition item_leb (x y : ascii * Z) : bool :=
  if ord (fst x) <? ord (fst y) then true
  else if ord (fst y) <? ord (fst x) then false
  else snd x <=? snd y.

Fixpoint n_less_than_loop (items : list (ascii * Z)) (lower_char_count : Z)
    (n_occurring_lower_letters : dict Z) : dict Z :=
  match items with
  | [] => n_occurring_lower_letters
  | (key, value) :: items' =>
      n_less_than_loop items' (lower_char_count + value)
        (dict_set n_occurring_lower_letters key lower_char_count)
  end.

Definition n_less_than (letters : str) : dict Z :=
  let character_counts := Counter letters in
  let lexicographically_sorted_character_counts := sorted item_leb character_counts in
  n_less_than_loop lexicographically_sorted_character_counts 0 [].

Definition create_suffix_array_naive (text : str) : list Z :=
  sorted (fun x y => str_leb (slice_from text x) (slice_from text y))
    (range 0 (len text)).

(** ** The rank structure *)

(** Modelled from the spec: module [t_rank] (class [TRank], method
    [rank_at_row]) is imported by the source but is not among its files.
    The spec's rank structure stands in for it: built over the BWT and the
    alphabet, [rank(c, i)] is the number of occurrences of [c] within
    [BWT[0..i]] inclusive for [i >= 0], and 0 for [i < 0].  The rows
    [0..i] of a BWT that ends before row [i] are the whole BWT.  The spec
    makes a row that exceeds the length of the reference a failure of the
    rank structure; backward search on a built index asks for no such
    row (lemma [get_range_loop_rows]). *)
Record TRank : Type := mkTRank {
  reference : str;
  characters : list ascii
}.

(** Number of occurrences of [c] in [l]. *)
Definition count (c : ascii) (l : str) : Z :=
  len (filter (Ascii.eqb c) l).

(** Modelled from the spec: [rank(c, i)], the count of [c] in
    [reference[0..i]] inclusive, and 0 for [i < 0]. *)
Definition rank_at_row (r : TRank) (c : ascii) (row : Z) : Z :=
  if row <? 0 then 0 else count c (firstn (Z.to_nat (row + 1)) (reference r)).

(** ** The index *)

Record FMIndex : Type := mkFMIndex {
  text : str;
  suffix_array : list Z;
  bwt : str;
  occ_lex_lower : dict Z;
  rank_cps : TRank
}.

Definition sep : ascii := "$"%char.

Definition FMIndex_init (text : str) : result FMIndex :=
  let suffix_array := create_suffix_array_naive text in
  bwt <- mapM (fun i => getitem text (i - 1)) suffix_array ;;
  let occ_lex_lower := n_less_than bwt in
  Ok (mkFMIndex text suffix_array bwt occ_lex_lower
        (mkTRank bwt (keys occ_lex_lower))).

Section Queries.
Variable self : FMIndex.

(** The test [c not in keys] and the lookup [occ_lex_lower[c]] are one
    [dict_get]. *)
Definition backtrace_step (c : ascii) (start end_ : Z) : Z * Z :=
  match dict_get (occ_lex_lower self) c with
  | None => (end_ + 1, end_)
  | Some lower =>
      (rank_at_row (rank_cps self) c (start - 1) + lower + 1,
       rank_at_row (rank_cps self) c end_ + lower)
  end.

(** The [for c in rs] loop of [get_range], with its [break]. *)
Fixpoint get_range_loop (rs : str) (start end_ : Z) : Z * Z :=
  match rs with
  | [] => (start, end_)
  | c :: rs' =>
      let '(start', end') := backtrace_step c start end_ in
      if start' >? end' then (start', end')
      else get_range_loop rs' start' end'
  end.

Definition get_range (p : str) : Z * Z :=
  let '(start, end_) := get_range_loop (rev p) 0 (len (text self) - 1) in
  (start, end_ + 1).

Definition find (sub : str) : list Z :=
  let '(start, end_) := get_range sub in
  if start <? end_ then slice (suffix_array self) start end_ else [].

Definition contains_substring (p : str) : bool :=
  let '(start, end_) := get_range p in
  start <? end_.

Definition preceeded_by_sep (i : Z) : result bool :=
  c <- getitem (text self) (i - 1) ;; Ok (Ascii.eqb c sep).

Definition elements_preceeded_by_sep (start end_ : Z) : result (list Z) :=
  let indices := slice (suffix_array self) start (end_ + 1) in
  filterM preceeded_by_sep indices.

Definition find_prefixes (p : str) : result (list Z) :=
  let occurrences := find p in
  filterM preceeded_by_sep occurrences.

(** First loop of [get_read_at_offset]: symbols leftwards of [offset]
    up to the previous separator. *)
Fixpoint read_before (offset : Z) (js : list Z) (before : str) : result str :=
  match js with
  | [] => Ok before
  | i :: js' =>
      prev_char <- getitem (text self) (offset - i) ;;
      if Ascii.eqb prev_char sep then Ok before
      else read_before offset js' (before ++ [prev_char])
  end.

(** Second loop: symbols from [offset] up to the next separator. *)
Fixpoint read_after (offset : Z) (js : list Z) (after : str) : result str :=
  match js with
  | [] => Ok after
  | i :: js' =>
      next_char <- getitem (text self) (offset + i) ;;
      if Ascii.eqb next_char sep then Ok after
      else read_after offset js' (after ++ [next_char])
  end.

Definition get_read_at_offset (offset : Z) : result str :=
  before <- read_before offset (range 1 (offset + 1)) [] ;;
  after <- read_after offset (range 0 (len (text self) - offset)) [] ;;
  Ok (rev before ++ after).

(** The loop of [get_prefix_overlaps]; [n] is [len(p)]. *)
Fixpoint get_prefix_overlaps_loop (n min_overlap_len : Z) (rs : str)
    (start end_ chars_into_p : Z) (all_overlaps : list (str * Z))
    : result (list (str * Z)) :=
  match rs with
  | [] => Ok all_overlaps
  | c :: rs' =>
      let '(start', end') := backtrace_step c start end_ in
      let chars_into_p' := chars_into_p + 1 in
      if start' >? end' then Ok all_overlaps
      else if (min_overlap_len <=? chars_into_p') && (chars_into_p' <? n)
      then
        overlaps <- elements_preceeded_by_sep start' end' ;;
        overlaps' <- mapM (fun i => r <- get_read_at_offset i ;; Ok (r, chars_into_p'))
                       overlaps ;;
        get_prefix_overlaps_loop n min_overlap_len rs' start' end' chars_into_p'
          (all_overlaps ++ overlaps')
      else
        get_prefix_overlaps_loop n min_overlap_len rs' start' end' chars_into_p'
          all_overlaps
  end.

Definition get_prefix_overlaps (p : str) (min_overlap_len : Z)
    : result (list (str * Z)) :=
  get_prefix_overlaps_loop (len p) min_overlap_len (rev p)
    0 (len (text self) - 1) 0 [].
End Queries.

(** ** Definitions used to state the properties *)

(** Offsets at which [p] occurs in [txt], by a scan of every offset:
    [[i for i in range(len(txt)) if txt[i:i+len(p)] == p]]. *)
Definition str_eqb (x y : str) : bool :=
  if list_eq_dec ascii_dec x y then true else false.

Definition occurrences (txt p : str) : list Z :=
  filter (fun i => str_eqb (slice txt i (i + len p)) p) (range 0 (len txt)).

(** Sum of the entries of a table. *)
Definition total (d : dict Z) : Z := fold_right Z.add 0 (values d).

(** Number of symbols of [l] that satisfy [P]. *)
Definition count_if (P : ascii -> bool) (l : str) : Z := len (filter P l).

(** The last [k] symbols and the first [k] symbols of a [str]. *)
Definition suffix_of (k : Z) (x : str) : str := slice_from x (len x - k).
Definition prefix_of (k : Z) (x : str) : str := slice x 0 k.

(** Sum of the entries of a table whose key satisfies [P]. *)
Definition weight (P : ascii -> bool) (d : dict Z) : Z :=
  total (filter (fun kv => P (fst kv)) d).

(** Symbols strictly below [c]. *)
Definition below (c : ascii) : ascii -> bool := fun x => ord x <? ord c.

(** Items in strictly increasing order of their keys. *)
Definition key_lt (x y : ascii * Z) : Prop := ord (fst x) < ord (fst y).

(** A half-open pair of rows holds no row. *)
Definition empty_range (r : Z * Z) : Prop := ~ fst r < snd r.

(** ** The queries over any rank structure *)

(** Module [t_rank] is not among the sources, so what its method
    [rank_at_row] answers is not fixed by the code.  Here the method is a
    parameter [rank] of the functions that call it; each function is the
    same source function as above, with [self.rank_cps.rank_at_row]
    standing for [rank (rank_cps self)]. *)
Section AnyRank.
Variable rank : TRank -> ascii -> Z -> Z.
Variable self : FMIndex.

Definition backtrace_step_with (c : ascii) (start end_ : Z) : Z * Z :=
  match dict_get (occ_lex_lower self) c with
  | None => (end_ + 1, end_)
  | Some lower =>
      (rank (rank_cps self) c (start - 1) + lower + 1,
       rank (rank_cps self) c end_ + lower)
  end.

Fixpoint get_range_loop_with (rs : str) (start end_ : Z) : Z * Z :=
  match rs with
  | [] => (start, end_)
  | c :: rs' =>
      let '(start', end') := backtrace_step_with c start end_ in
      if start' >? end' then (start', end')
      else get_range_loop_with rs' start' end'
  end.

Definition get_range_with (p : str) : Z * Z :=
  let '(start, end_) := get_range_loop_with (rev p) 0 (len (text self) - 1) in
  (start, end_ + 1).

Definition find_with (sub : str) : list Z :=
  let '(start, end_) := get_range_with sub in
  if start <? end_ then slice (suffix_array self) start end_ else [].

Definition contains_substring_with (p : str) : bool :=
  let '(start, end_) := get_range_with p in
  start <? end_.

Fixpoint get_prefix_overlaps_loop_with (n min_overlap_len : Z) (rs : str)
    (start end_ chars_into_p : Z) (all_overlaps : list (str * Z))
    : result (list (str * Z)) :=
  match rs with
  | [] => Ok all_overlaps
  | c :: rs' =>
      let '(start', end') := backtrace_step_with c start end_ in
      let chars_into_p' := chars_into_p + 1 in
      if start' >? end' then Ok all_overlaps
      else if (min_overlap_len <=? chars_into_p') && (chars_into_p' <? n)
      then
        overlaps <- elements_preceeded_by_sep self start' end' ;;
        overlaps' <- mapM (fun i => r <- get_read_at_offset self i ;; Ok (r, chars_into_p'))
                       overlaps ;;
        get_prefix_overlaps_loop_with n min_overlap_len rs' start' end' chars_into_p'
          (all_overlaps ++ overlaps')
      else
        get_prefix_overlaps_loop_with n min_overlap_len rs' start' end' chars_into_p'
          all_overlaps
  end.

Definition get_prefix_overlaps_with (p : str) (min_overlap_len : Z)
    : result (list (str * Z)) :=
  get_prefix_overlaps_loop_with (len p) min_overlap_len (rev p)
    0 (len (text self) - 1) 0 [].
End AnyRank.

(** A rank that numbers the occurrences of a symbol from 0: for the last
    occurrence of [c] within [reference[0..row]] it answers how many
    occurrences come before it, and -1 when there is none (also for
    [row < 0]).  With it the two lines of [backtrace_step] are the
    rows of the first and of the last suffix that starts with [c]
    followed by the pattern scanned so far. *)
Definition rank_from_zero (r : TRank) (c : ascii) (row : Z) : Z :=
  count c (firstn (Z.to_nat (row + 1)) (reference r)) - 1.

(** [rank] numbers occurrences from 0. *)
Definition counts_from_zero (rank : TRank -> ascii -> Z -> Z) : Prop :=
  forall r c row, rank r c row = rank_from_zero r c row.

(** Where a string [x] stands against the pattern [p]: 0 when it sorts
    before every string that starts with [p], 1 when it starts with [p],
    2 when it sorts after. *)
Fixpoint cls (p x : str) : Z :=
  match p with
  | [] => 1
  | a :: p' =>
      match x with
      | [] => 0
      | b :: x' =>
          if ord b <? ord a then 0
          else if ord a <? ord b then 2
          else cls p' x'
      end
  end.

(** The non-empty suffixes of a string, longest first. *)
Fixpoint tails (x : str) : list str :=
  match x with
  | [] => []
  | b :: x' => (b :: x') :: tails x'
  end.

(** The symbol before offset [i], as the BWT reads it, is [c]. *)
Definition pre_is (txt : str) (c : ascii) (i : Z) : bool :=
  match getitem txt (i - 1) with
  | Ok b => Ascii.eqb c b
  | Raise _ => false
  end.

(** [x] is [c] followed by a string that stands below [v] against [q]. *)
Definition led_by (c : ascii) (q : str) (v : Z) (x : str) : bool :=
  match x with
  | [] => false
  | b :: x' => Ascii.eqb c b && (cls q x' <? v)
  end.

(** Number of suffix-array rows whose suffix stands below [v] against [q]. *)
Definition rows_below (txt : str) (v : Z) (q : str) : Z :=
  len (filter (fun i => cls q (slice_from txt i) <? v) (create_suffix_array_naive txt)).

(** The suffix-array entries whose suffix starts with [q]. *)
Definition starting_with (txt q : str) : list Z :=
  filter (fun i => cls q (slice_from txt i) =? 1) (create_suffix_array_naive txt).

(** Strict order of [str]. *)
Definition str_lt (x y : str) : Prop := str_leb x y = true /\ str_leb y x = false.

(** The table [n_less_than_loop] builds from items with fresh keys: every
    key with the sum of the values before it. *)
Fixpoint running (items : list (ascii * Z)) (lower : Z) : dict Z :=
  match items with
  | [] => []
  | (key, value) :: items' => (key, lower) :: running items' (lower + value)
  end.

(** The symbols of [l] before its first separator. *)
Fixpoint upto_sep (l : str) : str :=
  match l with
  | [] => []
  | c :: l' => if Ascii.eqb c sep then [] else c :: upto_sep l'
  end.

(** The results of [f] on the elements of [ks], one after the other. *)
Fixpoint collect {A B : Type} (f : A -> result (list B)) (ks : list A) : result (list B) :=
  match ks with
  | [] => Ok []
  | k :: ks' => l <- f k ;; ls <- collect f ks' ;; Ok (l ++ ls)
  end.

(** The reads that start where [find_prefixes] finds the pattern [q],
    each paired with [k]. *)
Definition reads_at_prefixes (self : FMIndex) (q : str) (k : Z) : result (list (str * Z)) :=
  offsets <- find_prefixes self q ;;
  mapM (fun i => r <- get_read_at_offset self i ;; Ok (r, k)) offsets.

(** A pair whose read is the read at a suffix-array entry that counts as
    preceded by a separator. *)
Definition reported (self : FMIndex) (x : str * Z) : Prop :=
  ~ In sep (fst x) /\
  exists i, In i (suffix_array self) /\
            preceeded_by_sep self i = Ok true /\
            get_read_at_offset self i = Ok (fst x).

(** * Facts about the Python primitives *)

Lemma len_nonneg {A : Type} (l : list A) : 0 <= len l.
Proof. unfold len. lia. Qed.

Lemma len_nil_iff {A : Type} (l : list A) : len l = 0 <-> l = [].
Proof.
  unfold len. destruct l; simpl; split; intros H; try reflexivity; try discriminate; lia.
Qed.

Lemma ord_inj (a b : ascii) : ord a = ord b -> a = b.
Proof.
  unfold ord. intros H. apply N2Z.inj in H.
  rewrite <- (ascii_N_embedding a), <- (ascii_N_embedding b). now rewrite H.
Qed.

Lemma in_range (a b i : Z) : In i (range a b) <-> a <= i < b.
Proof.
  unfold range. rewrite in_map_iff. split.
  - intros (k & <- & Hk). apply in_seq in Hk. lia.
  - intros H. exists (Z.to_nat (i - a)). split; [lia|]. apply in_seq. lia.
Qed.

Lemma length_range (a b : Z) : List.length (range a b) = Z.to_nat (b - a).
Proof. unfold range. now rewrite length_map, length_seq. Qed.

Lemma range_cons (a b : Z) : a < b -> range a b = a :: range (a + 1) b.
Proof.
  intros H. unfold range.
  replace (Z.to_nat (b - a)) with (S (Z.to_nat (b - (a + 1)))) by lia.
  simpl. f_equal; [lia|].
  rewrite <- seq_shift, map_map. apply map_ext. intros k. lia.
Qed.

(** [l[k]] for a natural number [k]. *)
Lemma getitem_nat {A : Type} (l : list A) (k : nat) :
  getitem l (Z.of_nat k) =
  match nth_error l k with Some a => Ok a | None => Raise IndexError end.
Proof.
  unfold getitem, len.
  destruct (Z.ltb_spec (Z.of_nat k) 0) as [Hneg|_]; [lia|].
  rewrite Nat2Z.id.
  destruct (Z.leb_spec 0 (Z.of_nat k)) as [_|Hneg]; [|lia].
  destruct (Z.ltb_spec (Z.of_nat k) (Z.of_nat (List.length l))) as [Hlt|Hge]; simpl.
  - reflexivity.
  - assert (Hnone : nth_error l k = None) by (apply nth_error_None; lia).
    now rewrite Hnone.
Qed.

(** Inside the bounds, and one step below zero, indexing returns. *)
Lemma getitem_returns {A : Type} (l : list A) (i : Z) :
  - len l <= i < len l -> exists a, getitem l i = Ok a.
Proof.
  intros Hi. unfold getitem.
  set (j := if i <? 0 then i + len l else i).
  assert (Hj : 0 <= j < len l) by (subst j; destruct (Z.ltb_spec i 0); lia).
  destruct (Z.leb_spec 0 j) as [_|?]; [|lia].
  destruct (Z.ltb_spec j (len l)) as [_|?]; [|lia]. simpl.
  destruct (nth_error l (Z.to_nat j)) eqn:E; [eauto|].
  apply nth_error_None in E. unfold len in Hj. lia.
Qed.

Lemma len_app {A : Type} (l1 l2 : list A) : len (l1 ++ l2) = len l1 + len l2.
Proof. unfold len. rewrite length_app. lia. Qed.

Lemma len_cons {A : Type} (a : A) (l : list A) : len (a :: l) = len l + 1.
Proof. unfold len. cbn [List.length]. lia. Qed.

Lemma getitem_last {A : Type} (l : list A) (a : A) :
  getitem (l ++ [a]) (-1) = Ok a.
Proof.
  unfold getitem. change (-1 <? 0) with true. cbv iota.
  rewrite len_app, len_cons. change (len (@nil A)) with 0.
  replace (-1 + (len l + (0 + 1))) with (len l) by lia.
  pose proof (len_nonneg l) as Hn.
  destruct (Z.leb_spec 0 (len l)) as [_|?]; [|lia].
  destruct (Z.ltb_spec (len l) (len l + (0 + 1))) as [_|?]; [|lia].
  cbv beta iota. unfold andb, len.
  rewrite Nat2Z.id, nth_error_app2, Nat.sub_diag by lia. reflexivity.
Qed.

Lemma slice_all {A : Type} (l : list A) : slice l 0 (len l) = l.
Proof.
  unfold slice, slice_bound. pose proof (len_nonneg l) as Hn.
  destruct (Z.ltb_spec (len l) 0) as [?|_]; [lia|]. simpl.
  rewrite Z.min_id, Z.min_l, Z.sub_0_r by lia. simpl.
  unfold len. rewrite Nat2Z.id. apply firstn_all.
Qed.

Lemma in_firstn {A : Type} (n : nat) (l : list A) (x : A) :
  In x (firstn n l) -> In x l.
Proof.
  intros H. rewrite <- (firstn_skipn n l). apply in_or_app. now left.
Qed.

Lemma in_skipn {A : Type} (n : nat) (l : list A) (x : A) :
  In x (skipn n l) -> In x l.
Proof.
  intros H. rewrite <- (firstn_skipn n l). apply in_or_app. now right.
Qed.

Lemma in_slice {A : Type} (l : list A) (a b : Z) (x : A) :
  In x (slice l a b) -> In x l.
Proof.
  unfold slice. intros H. apply in_firstn in H. now apply in_skipn in H.
Qed.

(** ** The result monad *)

Lemma mapM_returns {A B : Type} (f : A -> result B) (l : list A) :
  (forall x, In x l -> exists y, f x = Ok y) ->
  exists ys, mapM f l = Ok ys.
Proof.
  induction l as [|x l IH]; intros H; simpl.
  - eauto.
  - destruct (H x (or_introl eq_refl)) as (y & ->). simpl.
    destruct IH as (ys & ->); [intros; apply H; now right|]. simpl. eauto.
Qed.

Lemma filterM_returns {A : Type} (f : A -> result bool) (l : list A) :
  (forall x, In x l -> exists b, f x = Ok b) ->
  exists xs, filterM f l = Ok xs.
Proof.
  induction l as [|x l IH]; intros H; simpl.
  - eauto.
  - destruct (H x (or_introl eq_refl)) as (b & ->). simpl.
    destruct IH as (xs & ->); [intros; apply H; now right|]. simpl. eauto.
Qed.

Lemma filterM_keeps {A : Type} (f : A -> result bool) (l xs : list A) (x : A) :
  filterM f l = Ok xs -> In x l -> f x = Ok true -> In x xs.
Proof.
  revert xs. induction l as [|y l IH]; simpl; intros xs H Hin Hx; [contradiction|].
  destruct (f y) as [b|e] eqn:Ey; simpl in H; [|discriminate].
  destruct (filterM f l) as [xs'|e] eqn:El; simpl in H; [|discriminate].
  injection H as <-.
  destruct Hin as [->|Hin].
  - rewrite Hx in Ey. injection Ey as <-. now left.
  - specialize (IH xs' eq_refl Hin Hx). destruct b; [now right|assumption].
Qed.

(** ** [sorted] permutes its argument *)

Section SortingFacts.
Context {A : Type} (leb : A -> A -> bool).

Lemma insert_perm (x : A) (l : list A) : Permutation (insert leb x l) (x :: l).
Proof.
  induction l as [|y l IH]; simpl.
  - reflexivity.
  - destruct (leb x y).
    + reflexivity.
    + rewrite IH. apply perm_swap.
Qed.

Lemma sorted_perm (l : list A) : Permutation (sorted leb l) l.
Proof.
  induction l as [|x l IH]; simpl.
  - reflexivity.
  - rewrite insert_perm. now constructor.
Qed.
End SortingFacts.

(** * The table of lower symbols *)

Section DictFacts.
Context {V : Type}.
Implicit Types (d : dict V) (k c : ascii) (v : V).

Lemma dict_get_set d k v c :
  dict_get (dict_set d k v) c = if Ascii.eqb k c then Some v else dict_get d c.
Proof.
  induction d as [|[k' v'] d IH]; simpl.
  - reflexivity.
  - destruct (Ascii.eqb_spec k' k) as [->|Hk]; simpl.
    + destruct (Ascii.eqb_spec k c); reflexivity.
    + rewrite IH. destruct (Ascii.eqb_spec k' c) as [->|Hc]; [|reflexivity].
      destruct (Ascii.eqb_spec k c); congruence.
Qed.

Lemma dict_get_None d c : dict_get d c = None <-> ~ In c (keys d).
Proof.
  induction d as [|[k' v'] d IH]; simpl.
  - tauto.
  - destruct (Ascii.eqb_spec k' c) as [->|Hc].
    + split; [discriminate|]. intros H. exfalso. apply H. now left.
    + rewrite IH. tauto.
Qed.

Lemma dict_get_Some d c : In c (keys d) -> exists v, dict_get d c = Some v.
Proof.
  intros H. destruct (dict_get d c) eqn:E; [eauto|].
  apply dict_get_None in E. contradiction.
Qed.

Lemma in_keys_set d k v c : In c (keys (dict_set d k v)) <-> c = k \/ In c (keys d).
Proof.
  induction d as [|[k' v'] d IH]; simpl.
  - intuition congruence.
  - destruct (Ascii.eqb_spec k' k) as [->|Hk]; simpl.
    + intuition congruence.
    + fold (keys (dict_set d k v)). rewrite IH. fold (keys d). intuition congruence.
Qed.

Lemma NoDup_keys_set d k v : NoDup (keys d) -> NoDup (keys (dict_set d k v)).
Proof.
  induction d as [|[k' v'] d IH]; simpl; intros H.
  - repeat constructor. intros [].
  - inversion H as [|? ? Hnin Hnd]; subst.
    destruct (Ascii.eqb_spec k' k) as [->|Hk]; simpl.
    + now constructor.
    + constructor; [|now apply IH].
      fold (keys (dict_set d k v)). rewrite in_keys_set. intuition congruence.
Qed.
End DictFacts.

Lemma total_cons (k : ascii) (v : Z) (d : dict Z) : total ((k, v) :: d) = v + total d.
Proof. reflexivity. Qed.

Lemma weight_cons (P : ascii -> bool) (k : ascii) (v : Z) (d : dict Z) :
  weight P ((k, v) :: d) = (if P k then v else 0) + weight P d.
Proof.
  unfold weight. cbn [filter fst]. destruct (P k); [apply total_cons|reflexivity].
Qed.

Lemma weight_nil (P : ascii -> bool) : weight P [] = 0.
Proof. reflexivity. Qed.

Lemma weight_perm (P : ascii -> bool) (d d' : dict Z) :
  Permutation d d' -> weight P d = weight P d'.
Proof.
  induction 1 as [|[k v] d d' _ IH|[k v] [k' v'] d|d d' d'' _ IH1 _ IH2].
  - reflexivity.
  - rewrite !weight_cons. lia.
  - rewrite !weight_cons. lia.
  - congruence.
Qed.

Lemma weight_none (P : ascii -> bool) (d : dict Z) :
  (forall k, In k (keys d) -> P k = false) -> weight P d = 0.
Proof.
  induction d as [|[k v] d IH]; intros H.
  - reflexivity.
  - rewrite weight_cons, (H k) by now left. rewrite IH; [reflexivity|].
    intros k' Hk'. apply H. now right.
Qed.

Lemma count_if_cons (P : ascii -> bool) (c : ascii) (l : str) :
  count_if P (c :: l) = (if P c then 1 else 0) + count_if P l.
Proof.
  unfold count_if. cbn [filter]. destruct (P c); [rewrite len_cons|]; lia.
Qed.

Lemma count_if_perm (P : ascii -> bool) (l l' : str) :
  Permutation l l' -> count_if P l = count_if P l'.
Proof.
  induction 1 as [|c l l' _ IH|c c' l|l l' l'' _ IH1 _ IH2].
  - reflexivity.
  - rewrite !count_if_cons. lia.
  - rewrite !count_if_cons. lia.
  - congruence.
Qed.

Lemma count_if_nonneg (P : ascii -> bool) (l : str) : 0 <= count_if P l.
Proof. apply len_nonneg. Qed.

(** *** [Counter] *)

Lemma weight_tally (P : ascii -> bool) (d : dict Z) (c : ascii) :
  weight P (tally d c) = weight P d + (if P c then 1 else 0).
Proof.
  unfold tally. induction d as [|[k v] d IH].
  - cbn [dict_get dict_set]. rewrite weight_cons, weight_nil. destruct (P c); lia.
  - cbn [dict_get dict_set]. destruct (Ascii.eqb_spec k c) as [->|Hk].
    + rewrite !weight_cons. destruct (P c); lia.
    + rewrite !weight_cons, IH. lia.
Qed.

Lemma weight_fold_tally (P : ascii -> bool) (letters : str) (d : dict Z) :
  weight P (fold_left tally letters d) = weight P d + count_if P letters.
Proof.
  revert d. induction letters as [|c letters IH]; intros d; cbn [fold_left].
  - unfold count_if. cbn. lia.
  - rewrite IH, weight_tally, count_if_cons. lia.
Qed.

Lemma in_keys_fold_tally (letters : str) (d : dict Z) (k : ascii) :
  In k (keys (fold_left tally letters d)) <-> In k (keys d) \/ In k letters.
Proof.
  revert d. induction letters as [|c letters IH]; intros d; cbn [fold_left].
  - simpl. tauto.
  - rewrite IH. unfold tally. rewrite in_keys_set. simpl. intuition congruence.
Qed.

Lemma NoDup_keys_fold_tally (letters : str) (d : dict Z) :
  NoDup (keys d) -> NoDup (keys (fold_left tally letters d)).
Proof.
  revert d. induction letters as [|c letters IH]; intros d H; cbn [fold_left].
  - assumption.
  - apply IH. now apply NoDup_keys_set.
Qed.

Lemma Counter_fold (letters : str) : Counter letters = fold_left tally letters [].
Proof. reflexivity. Qed.

(** *** Sorting the items *)

Lemma insert_key_sorted (x : ascii * Z) (items : list (ascii * Z)) :
  StronglySorted key_lt items ->
  ~ In (fst x) (keys items) ->
  StronglySorted key_lt (insert item_leb x items).
Proof.
  induction items as [|y items IH]; intros Hs Hnin; cbn [insert].
  - repeat constructor.
  - inversion Hs as [|? ? Hs' Hall]; subst.
    assert (Hne : ord (fst x) <> ord (fst y)).
    { intros E. apply ord_inj in E. apply Hnin. left. now symmetry. }
    unfold item_leb at 1.
    destruct (Z.ltb_spec (ord (fst x)) (ord (fst y))) as [Hlt|Hge].
    + constructor; [assumption|]. constructor; [exact Hlt|].
      eapply Forall_impl; [|exact Hall]. unfold key_lt. intros z Hz. lia.
    + destruct (Z.ltb_spec (ord (fst y)) (ord (fst x))) as [Hlt|Hge']; [|lia].
      constructor.
      * apply IH; [assumption|]. intros Hin. apply Hnin. now right.
      * apply Forall_forall. intros z Hz.
        apply (Permutation_in _ (insert_perm item_leb x items)) in Hz.
        destruct Hz as [<-|Hz]; [exact Hlt|].
        rewrite Forall_forall in Hall. now apply Hall.
Qed.

Lemma sorted_key_sorted (items : list (ascii * Z)) :
  NoDup (keys items) -> StronglySorted key_lt (sorted item_leb items).
Proof.
  induction items as [|x items IH]; cbn [sorted fold_right keys map]; intros H.
  - constructor.
  - inversion H as [|? ? Hnin Hnd]; subst.
    apply insert_key_sorted; [now apply IH|].
    intros Hin. apply Hnin.
    eapply Permutation_in; [|exact Hin].
    apply Permutation_map. apply sorted_perm.
Qed.

(** *** The loop of [n_less_than] *)

Lemma n_less_than_loop_other (items : list (ascii * Z)) (lower : Z) (d : dict Z) (c : ascii) :
  ~ In c (keys items) ->
  dict_get (n_less_than_loop items lower d) c = dict_get d c.
Proof.
  revert lower d. induction items as [|[k v] items IH]; intros lower d Hnin; cbn [n_less_than_loop].
  - reflexivity.
  - rewrite IH by (intros H; apply Hnin; now right).
    rewrite dict_get_set. destruct (Ascii.eqb_spec k c) as [->|Hk]; [|reflexivity].
    exfalso. apply Hnin. now left.
Qed.

Lemma n_less_than_loop_key (items : list (ascii * Z)) (lower : Z) (d : dict Z) (c : ascii) :
  StronglySorted key_lt items ->
  In c (keys items) ->
  dict_get (n_less_than_loop items lower d) c = Some (lower + weight (below c) items).
Proof.
  revert lower d. induction items as [|[k v] items IH]; intros lower d Hs Hin; cbn [n_less_than_loop].
  - contradiction.
  - inversion Hs as [|? ? Hs' Hall]; subst. rewrite Forall_forall in Hall.
    rewrite weight_cons.
    assert (Habove : forall k', In k' (keys items) -> ord k < ord k').
    { intros k' Hk'. apply in_map_iff in Hk' as ([k'' v'] & <- & Hk'). exact (Hall _ Hk'). }
    destruct Hin as [Hin|Hin].
    + cbn [fst] in Hin. subst c.
      rewrite n_less_than_loop_other by (intros H; apply Habove in H; lia).
      rewrite dict_get_set, Ascii.eqb_refl.
      unfold below at 1. rewrite Z.ltb_irrefl.
      rewrite weight_none; [f_equal; lia|].
      intros k' Hk'. unfold below. apply Z.ltb_ge. apply Habove in Hk'. lia.
    + rewrite (IH _ _ Hs' Hin). f_equal.
      apply Habove in Hin. unfold below at 2.
      destruct (Z.ltb_spec (ord k) (ord c)); lia.
Qed.

(** [n_less_than] maps every symbol that occurs to the number of symbols of
    the sequence below it, and no other symbol. *)
Lemma n_less_than_get (letters : str) (c : ascii) :
  In c letters ->
  dict_get (n_less_than letters) c = Some (count_if (below c) letters).
Proof.
  intros Hin. unfold n_less_than.
  assert (Hnd : NoDup (keys (Counter letters))).
  { rewrite Counter_fold. apply NoDup_keys_fold_tally. constructor. }
  rewrite n_less_than_loop_key.
  - f_equal. rewrite (weight_perm _ _ _ (sorted_perm item_leb (Counter letters))).
    rewrite Counter_fold, weight_fold_tally, weight_nil. lia.
  - now apply sorted_key_sorted.
  - eapply Permutation_in.
    + apply Permutation_map. symmetry. apply sorted_perm.
    + rewrite Counter_fold. apply in_keys_fold_tally. now right.
Qed.

Lemma n_less_than_keys (letters : str) (c : ascii) :
  In c (keys (n_less_than letters)) <-> In c letters.
Proof.
  split.
  - intros H. destruct (in_dec ascii_dec c letters) as [Hin|Hnin]; [assumption|].
    exfalso. apply dict_get_Some in H as (v & Hv).
    unfold n_less_than in Hv. rewrite n_less_than_loop_other in Hv; [discriminate|].
    intros Hk. apply Hnin.
    apply (Permutation_in _ (Permutation_map fst (sorted_perm item_leb (Counter letters)))) in Hk.
    rewrite Counter_fold in Hk. apply in_keys_fold_tally in Hk as [[]|Hk]. exact Hk.
  - intros H. apply n_less_than_get in H.
    destruct (in_dec ascii_dec c (keys (n_less_than letters))) as [Hin|Hnin]; [assumption|].
    apply dict_get_None in Hnin. congruence.
Qed.

(** * Construction of the index *)

Lemma mapM_map {A B C : Type} (g : A -> B) (f : B -> result C) (l : list A) :
  mapM f (map g l) = mapM (fun x => f (g x)) l.
Proof.
  induction l as [|x l IH]; simpl; [reflexivity|]. now rewrite IH.
Qed.

Lemma mapM_ext_in {A B : Type} (f g : A -> result B) (l : list A) :
  (forall x, In x l -> f x = g x) -> mapM f l = mapM g l.
Proof.
  induction l as [|x l IH]; simpl; intros H; [reflexivity|].
  rewrite (H x) by now left. rewrite IH; [reflexivity|].
  intros y Hy. apply H. now right.
Qed.

Lemma mapM_perm {A B : Type} (f : A -> result B) (l l' : list A) :
  Permutation l l' ->
  forall ys, mapM f l = Ok ys ->
  exists ys', mapM f l' = Ok ys' /\ Permutation ys ys'.
Proof.
  induction 1 as [|x l l' _ IH|x y l|l l' l'' _ IH1 _ IH2]; intros ys Hys.
  - exists ys. split; [assumption|reflexivity].
  - simpl in *. destruct (f x) as [z|e]; simpl in *; [|discriminate].
    destruct (mapM f l) as [zs|e]; simpl in *; [|discriminate].
    injection Hys as <-. destruct (IH zs eq_refl) as (zs' & -> & Hp).
    simpl. exists (z :: zs'). split; [reflexivity|now constructor].
  - simpl in *. destruct (f y) as [u|e]; simpl in *; [|discriminate].
    destruct (f x) as [w|e]; simpl in *; [|discriminate].
    destruct (mapM f l) as [zs|e]; simpl in *; [|discriminate].
    injection Hys as <-. exists (w :: u :: zs). split; [reflexivity|apply perm_swap].
  - destruct (IH1 ys Hys) as (ys' & H' & Hp').
    destruct (IH2 ys' H') as (ys'' & H'' & Hp'').
    exists ys''. split; [assumption|]. now transitivity ys'.
Qed.

(** Reading a list position by position gives the list back. *)
Lemma mapM_nth_error_seq {A : Type} (l r : list A) :
  mapM (fun k => match nth_error (l ++ r) k with Some a => Ok a | None => Raise IndexError end)
       (seq 0 (List.length l)) = Ok l.
Proof.
  induction l as [|x l IH]; cbn [List.length seq].
  - reflexivity.
  - cbn [mapM app nth_error bind]. rewrite <- seq_shift, mapM_map.
    cbn [nth_error]. rewrite IH. reflexivity.
Qed.

Lemma suffix_array_perm (txt : str) :
  Permutation (create_suffix_array_naive txt) (range 0 (len txt)).
Proof. apply sorted_perm. Qed.

Lemma suffix_array_in_range (txt : str) (i : Z) :
  In i (create_suffix_array_naive txt) -> 0 <= i < len txt.
Proof.
  intros H. apply in_range. eapply Permutation_in; [apply suffix_array_perm|exact H].
Qed.

Lemma length_suffix_array (txt : str) : len (create_suffix_array_naive txt) = len txt.
Proof.
  unfold len at 1. rewrite (Permutation_length (suffix_array_perm txt)), length_range.
  pose proof (len_nonneg txt). lia.
Qed.

(** The symbols before the offsets [0 .. n-1], in that order: the text
    turned by one place. *)
Lemma bwt_of_range (l : str) (a : ascii) :
  mapM (fun i => getitem (l ++ [a]) (i - 1)) (range 0 (len (l ++ [a]))) = Ok (a :: l).
Proof.
  rewrite range_cons by (rewrite len_app, len_cons; pose proof (len_nonneg l);
                         change (len (@nil ascii)) with 0; lia).
  cbn [mapM]. change (0 - 1) with (-1). rewrite getitem_last. cbn [bind].
  unfold range. rewrite mapM_map.
  rewrite len_app, len_cons. change (len (@nil ascii)) with 0.
  replace (Z.to_nat (len l + (0 + 1) - (0 + 1))) with (List.length l) by (unfold len; lia).
  erewrite mapM_ext_in.
  - rewrite (mapM_nth_error_seq l [a]). reflexivity.
  - intros k _. cbv beta. replace (0 + 1 + Z.of_nat k - 1) with (Z.of_nat k) by lia.
    apply getitem_nat.
Qed.

Lemma bwt_perm (txt bwt' : str) :
  mapM (fun i => getitem txt (i - 1)) (create_suffix_array_naive txt) = Ok bwt' ->
  Permutation bwt' txt.
Proof.
  intros H.
  destruct (mapM_perm _ _ _ (suffix_array_perm txt) _ H) as (ys & Hys & Hp).
  destruct (list_eq_dec ascii_dec txt []) as [->|Hne].
  - cbn in H. injection H as <-. constructor.
  - destruct (exists_last Hne) as (l & a & ->).
    rewrite bwt_of_range in Hys. injection Hys as <-.
    rewrite Hp. apply Permutation_cons_append.
Qed.

Lemma bwt_returns (txt : str) :
  exists b, mapM (fun i => getitem txt (i - 1)) (create_suffix_array_naive txt) = Ok b.
Proof.
  apply mapM_returns. intros i Hi. apply suffix_array_in_range in Hi.
  apply getitem_returns. lia.
Qed.

Lemma FMIndex_init_inv (txt : str) (idx : FMIndex) :
  FMIndex_init txt = Ok idx ->
  text idx = txt /\
  suffix_array idx = create_suffix_array_naive txt /\
  mapM (fun i => getitem txt (i - 1)) (create_suffix_array_naive txt) = Ok (bwt idx) /\
  occ_lex_lower idx = n_less_than (bwt idx) /\
  rank_cps idx = mkTRank (bwt idx) (keys (n_less_than (bwt idx))).
Proof.
  unfold FMIndex_init. intros H.
  destruct (mapM _ (create_suffix_array_naive txt)) as [b|e]; cbn [bind] in H; [|discriminate].
  injection H as <-. cbn. auto.
Qed.

Lemma FMIndex_init_returns (txt : str) : exists idx, FMIndex_init txt = Ok idx.
Proof.
  unfold FMIndex_init. destruct (bwt_returns txt) as (b & ->). cbn [bind]. eauto.
Qed.

(** The alphabet of a built index is the set of symbols of its text. *)
Lemma alphabet_of_built (txt : str) (idx : FMIndex) (c : ascii) :
  FMIndex_init txt = Ok idx ->
  (In c (keys (occ_lex_lower idx)) <-> In c txt).
Proof.
  intros H. destruct (FMIndex_init_inv _ _ H) as (_ & _ & Hb & -> & _).
  apply bwt_perm in Hb. rewrite n_less_than_keys.
  split; intros Hin.
  - exact (Permutation_in _ Hb Hin).
  - exact (Permutation_in _ (Permutation_sym Hb) Hin).
Qed.

(** * Backward search *)

Lemma count_app (c : ascii) (l1 l2 : str) : count c (l1 ++ l2) = count c l1 + count c l2.
Proof. unfold count. rewrite filter_app. apply len_app. Qed.

Lemma count_nonneg (c : ascii) (l : str) : 0 <= count c l.
Proof. apply len_nonneg. Qed.

(** The rank of a symbol does not decrease along the rows. *)
Lemma rank_at_row_mono (r : TRank) (c : ascii) (i j : Z) :
  i <= j -> rank_at_row r c i <= rank_at_row r c j.
Proof.
  intros Hij. unfold rank_at_row.
  destruct (Z.ltb_spec i 0) as [Hi|Hi]; destruct (Z.ltb_spec j 0) as [Hj|Hj]; try lia.
  - apply count_nonneg.
  - set (m := Z.to_nat (i + 1)). set (m' := Z.to_nat (j + 1)).
    assert (Hm : (m <= m')%nat) by (subst m m'; lia).
    rewrite <- (firstn_skipn m (firstn m' (reference r))).
    rewrite firstn_firstn, (Nat.min_l _ _ Hm), count_app.
    pose proof (count_nonneg c (skipn m (firstn m' (reference r)))). lia.
Qed.

Section SearchFacts.
Variable self : FMIndex.

Lemma backtrace_step_unknown (c : ascii) (start end_ : Z) :
  ~ In c (keys (occ_lex_lower self)) ->
  backtrace_step self c start end_ = (end_ + 1, end_).
Proof.
  intros H. apply dict_get_None in H. unfold backtrace_step. now rewrite H.
Qed.

(** A step never leaves [start] more than one past [end]. *)
Lemma backtrace_step_order (c : ascii) (start end_ : Z) :
  start <= end_ + 1 ->
  fst (backtrace_step self c start end_) <= snd (backtrace_step self c start end_) + 1.
Proof.
  intros H. unfold backtrace_step.
  destruct (dict_get (occ_lex_lower self) c) as [lower|]; cbn [fst snd]; [|lia].
  pose proof (rank_at_row_mono (rank_cps self) c (start - 1) end_). lia.
Qed.

(** A step on an empty range leaves it empty. *)
Lemma backtrace_step_empty (c : ascii) (start end_ : Z) :
  start > end_ ->
  fst (backtrace_step self c start end_) > snd (backtrace_step self c start end_).
Proof.
  intros H. unfold backtrace_step.
  destruct (dict_get (occ_lex_lower self) c) as [lower|]; cbn [fst snd]; [|lia].
  pose proof (rank_at_row_mono (rank_cps self) c end_ (start - 1)). lia.
Qed.

Lemma get_range_loop_cons (c : ascii) (rs : str) (start end_ : Z) :
  get_range_loop self (c :: rs) start end_ =
  if fst (backtrace_step self c start end_) >? snd (backtrace_step self c start end_)
  then backtrace_step self c start end_
  else get_range_loop self rs (fst (backtrace_step self c start end_))
                              (snd (backtrace_step self c start end_)).
Proof.
  cbn [get_range_loop]. destruct (backtrace_step self c start end_) as [s' e'].
  reflexivity.
Qed.

Lemma get_range_loop_order (rs : str) (start end_ : Z) :
  start <= end_ + 1 ->
  fst (get_range_loop self rs start end_) <= snd (get_range_loop self rs start end_) + 1.
Proof.
  revert start end_. induction rs as [|c rs IH]; intros start end_ H.
  - exact H.
  - rewrite get_range_loop_cons.
    pose proof (backtrace_step_order c start end_ H) as Hstep.
    destruct (_ >? _); [exact Hstep|]. now apply IH.
Qed.

(** Once the scan meets a symbol outside the alphabet the range is empty. *)
Lemma get_range_loop_unknown (rs : str) (c : ascii) (start end_ : Z) :
  In c rs ->
  ~ In c (keys (occ_lex_lower self)) ->
  fst (get_range_loop self rs start end_) > snd (get_range_loop self rs start end_).
Proof.
  intros Hin Hc. revert start end_.
  induction rs as [|c' rs IH]; intros start end_; [contradiction|].
  rewrite get_range_loop_cons.
  destruct (Z.gtb_spec (fst (backtrace_step self c' start end_))
                       (snd (backtrace_step self c' start end_))) as [Hgt|Hle].
  - lia.
  - destruct Hin as [->|Hin]; [|now apply IH].
    rewrite (backtrace_step_unknown c start end_ Hc) in Hle. cbn in Hle. lia.
Qed.

(** The scan of [rs] followed by one more symbol. *)
Lemma get_range_loop_snoc (rs : str) (c : ascii) (start end_ : Z) :
  get_range_loop self (rs ++ [c]) start end_ =
  let r := get_range_loop self rs start end_ in
  if fst r >? snd r
  then match rs with [] => backtrace_step self c start end_ | _ :: _ => r end
  else backtrace_step self c (fst r) (snd r).
Proof.
  revert start end_. induction rs as [|c' rs IH]; intros start end_.
  - cbn [app]. rewrite get_range_loop_cons. cbn [get_range_loop fst snd].
    destruct (backtrace_step self c start end_) as [s' e']. cbn [fst snd].
    destruct (s' >? e'), (start >? end_); reflexivity.
  - cbn [app]. rewrite !get_range_loop_cons.
    destruct (Z.gtb_spec (fst (backtrace_step self c' start end_))
                         (snd (backtrace_step self c' start end_))) as [Hgt|Hle].
    + cbv zeta. destruct (Z.gtb_spec (fst (backtrace_step self c' start end_))
                         (snd (backtrace_step self c' start end_))); [reflexivity|lia].
    + rewrite IH. cbv zeta. destruct rs as [|c'' rs]; [|reflexivity].
      cbn [get_range_loop fst snd].
      destruct (Z.gtb_spec (fst (backtrace_step self c' start end_))
                         (snd (backtrace_step self c' start end_))); [lia|reflexivity].
Qed.

Lemma get_range_nil : get_range self [] = (0, len (text self)).
Proof. unfold get_range. cbn [rev get_range_loop]. f_equal. lia. Qed.

Lemma get_range_eq (p : str) :
  get_range self p =
  (fst (get_range_loop self (rev p) 0 (len (text self) - 1)),
   snd (get_range_loop self (rev p) 0 (len (text self) - 1)) + 1).
Proof.
  unfold get_range. now destruct (get_range_loop self (rev p) 0 (len (text self) - 1)).
Qed.

Lemma find_eq (p : str) :
  find self p =
  if fst (get_range self p) <? snd (get_range self p)
  then slice (suffix_array self) (fst (get_range self p)) (snd (get_range self p))
  else [].
Proof. unfold find. now destruct (get_range self p). Qed.

Lemma contains_substring_eq (p : str) :
  contains_substring self p = (fst (get_range self p) <? snd (get_range self p)).
Proof. unfold contains_substring. now destruct (get_range self p). Qed.
End SearchFacts.

(** * Index construction validates nothing *)

(** C3, as stated: the empty text, a text without any sentinel and a text
    with a sentinel elsewhere than at its end are all accepted;
    construction returns an index for each and raises nothing. *)
Lemma construction_accepts_invalid_texts :
  FMIndex_init [] = Ok (mkFMIndex [] [] [] [] (mkTRank [] [])) /\
  FMIndex_init (chars "AB") <> Raise InvalidInputError /\
  FMIndex_init (chars "A$B") <> Raise InvalidInputError.
Proof.
  split; [reflexivity|]. split; vm_compute; discriminate.
Qed.

(** C3, amended: construction checks nothing about its text.  For every
    text, empty or not, with sentinels anywhere or nowhere, it returns an
    index holding that text and a suffix array of the same length, and so
    never raises [InvalidInputError]. *)
Theorem construction_always_returns (txt : str) :
  exists idx, FMIndex_init txt = Ok idx /\
              text idx = txt /\
              len (suffix_array idx) = len txt.
Proof.
  destruct (FMIndex_init_returns txt) as (idx & H).
  exists idx. destruct (FMIndex_init_inv _ _ H) as (Ht & Hsa & _).
  split; [exact H|]. split; [exact Ht|]. rewrite Hsa. apply length_suffix_array.
Qed.

(** * The count table *)

Lemma dict_get_in_keys {V : Type} (d : dict V) (c : ascii) (v : V) :
  dict_get d c = Some v -> In c (keys d).
Proof.
  intros H. destruct (in_dec ascii_dec c (keys d)) as [Hin|Hnin]; [assumption|].
  apply dict_get_None in Hnin. congruence.
Qed.

Lemma count_if_le (P Q : ascii -> bool) (l : str) :
  (forall x, P x = true -> Q x = true) -> count_if P l <= count_if Q l.
Proof.
  intros H. induction l as [|c l IH].
  - reflexivity.
  - rewrite !count_if_cons. specialize (H c).
    destruct (P c), (Q c); try lia; discriminate (H eq_refl).
Qed.

Lemma count_below_greatest (g : ascii) (l : str) :
  (forall c, In c l -> ord c <= ord g) ->
  count_if (below g) l + count g l = len l.
Proof.
  induction l as [|c l IH]; intros H.
  - reflexivity.
  - change (count g (c :: l)) with (count_if (Ascii.eqb g) (c :: l)).
    rewrite !count_if_cons, len_cons.
    change (count_if (Ascii.eqb g) l) with (count g l).
    specialize (IH (fun c' Hc' => H c' (or_intror Hc'))).
    specialize (H c (or_introl eq_refl)). unfold below at 1.
    destruct (Z.ltb_spec (ord c) (ord g)) as [Hlt|Hge].
    + destruct (Ascii.eqb_spec g c) as [->|_]; lia.
    + assert (g = c) as -> by (apply ord_inj; lia).
      rewrite Ascii.eqb_refl. lia.
Qed.

(** Every entry of the table of a built index counts the symbols of the
    text below its key. *)
Lemma occ_lex_lower_counts (txt : str) (idx : FMIndex) (c : ascii) (v : Z) :
  FMIndex_init txt = Ok idx ->
  dict_get (occ_lex_lower idx) c = Some v ->
  In c txt /\ v = count_if (below c) txt.
Proof.
  intros H Hv. destruct (FMIndex_init_inv _ _ H) as (_ & _ & Hb & Hocc & _).
  apply bwt_perm in Hb.
  rewrite Hocc in Hv.
  pose proof (proj1 (n_less_than_keys _ _) (dict_get_in_keys _ _ _ Hv)) as Hk.
  rewrite (n_less_than_get _ _ Hk) in Hv. injection Hv as <-.
  split; [exact (Permutation_in _ Hb Hk)|]. now apply count_if_perm.
Qed.

(** The entry of the greatest symbol of the text and its occurrences
    add up to the length of the text. *)
Lemma count_table_greatest (txt : str) (idx : FMIndex) (g : ascii) :
  FMIndex_init txt = Ok idx ->
  In g txt ->
  (forall c, In c txt -> ord c <= ord g) ->
  exists v, dict_get (occ_lex_lower idx) g = Some v /\ v + count g txt = len txt.
Proof.
  intros H Hg Hmax.
  pose proof (proj2 (alphabet_of_built txt idx g H) Hg) as Hk.
  apply dict_get_Some in Hk as (v & Hv). exists v. split; [assumption|].
  destruct (occ_lex_lower_counts _ _ _ _ H Hv) as (_ & ->).
  now apply count_below_greatest.
Qed.

(** ** Rows handed to the rank structure *)

Lemma rank_at_row_le_count (r : TRank) (c : ascii) (row : Z) :
  rank_at_row r c row <= count c (reference r).
Proof.
  unfold rank_at_row. destruct (row <? 0); [apply count_nonneg|].
  rewrite <- (firstn_skipn (Z.to_nat (row + 1)) (reference r)) at 2.
  rewrite count_app.
  pose proof (count_nonneg c (skipn (Z.to_nat (row + 1)) (reference r))). lia.
Qed.

Lemma count_and_below (c : ascii) (l : str) :
  count c l + count_if (below c) l <= len l.
Proof.
  induction l as [|x l IH].
  - reflexivity.
  - change (count c (x :: l)) with (count_if (Ascii.eqb c) (x :: l)).
    rewrite !count_if_cons, len_cons.
    change (count_if (Ascii.eqb c) l) with (count c l).
    unfold below at 1.
    destruct (Ascii.eqb_spec c x) as [->|_]; [rewrite Z.ltb_irrefl; lia|].
    destruct (ord x <? ord c); lia.
Qed.

(** On a built index a backward step never leaves the rows
    [0 .. len text]: the rank structure is asked for no row that exceeds
    the length of its reference. *)
Lemma backtrace_step_rows (txt : str) (idx : FMIndex) (c : ascii) (start end_ : Z) :
  FMIndex_init txt = Ok idx ->
  end_ <= len txt ->
  fst (backtrace_step idx c start end_) <= len txt + 1 /\
  snd (backtrace_step idx c start end_) <= len txt.
Proof.
  intros H He. destruct (FMIndex_init_inv _ _ H) as (_ & _ & Hb & Hocc & Hr).
  unfold backtrace_step.
  destruct (dict_get (occ_lex_lower idx) c) as [lower|] eqn:E; cbn [fst snd]; [|lia].
  destruct (occ_lex_lower_counts _ _ _ _ H E) as (_ & ->).
  apply bwt_perm in Hb.
  pose proof (rank_at_row_le_count (rank_cps idx) c (start - 1)) as H1.
  pose proof (rank_at_row_le_count (rank_cps idx) c end_) as H2.
  rewrite Hr in H1, H2. cbn [reference] in H1, H2.
  pose proof (count_and_below c (bwt idx)) as H3.
  rewrite (count_if_perm _ _ _ Hb) in H3.
  unfold len in H3 at 1. rewrite (Permutation_length Hb) in H3. fold (len txt) in H3.
  rewrite Hr. lia.
Qed.

Lemma get_range_loop_rows (txt : str) (idx : FMIndex) (rs : str) (start end_ : Z) :
  FMIndex_init txt = Ok idx ->
  start <= len txt + 1 ->
  end_ <= len txt ->
  fst (get_range_loop idx rs start end_) <= len txt + 1 /\
  snd (get_range_loop idx rs start end_) <= len txt.
Proof.
  intros H. revert start end_. induction rs as [|c rs IH]; intros start end_ Hs He.
  - cbn. lia.
  - rewrite get_range_loop_cons.
    pose proof (backtrace_step_rows txt idx c start end_ H He) as (Hs' & He').
    destruct (_ >? _); [lia|]. now apply IH.
Qed.

(** C6, as stated: over the text AB$ the entries of the table are 0, 1
    and 2; their sum plus the single occurrence of the greatest symbol B
    is 4, not the length 3. *)
Lemma count_table_sum_exceeds_length :
  exists idx, FMIndex_init (chars "AB$") = Ok idx /\
    occ_lex_lower idx = [("$"%char, 0); ("A"%char, 1); ("B"%char, 2)] /\
    (forall c, In c (text idx) -> ord c <= ord "B"%char) /\
    total (occ_lex_lower idx) + count "B"%char (text idx) = 4 /\
    len (text idx) = 3.
Proof.
  eexists. split; [vm_compute; reflexivity|].
  split; [reflexivity|]. split; [|split; reflexivity].
  cbn [text]. intros c [<-|[<-|[<-|[]]]]; vm_compute; discriminate.
Qed.

(** C6, amended: for every built index over a text of length n, the entry
    of the lexicographically greatest symbol (not the sum of all entries)
    plus the number of occurrences of that symbol equals n; every entry
    is the number of text symbols strictly below its key; and the table
    is non-decreasing in lexicographic symbol order. *)
Theorem count_table_invariant (txt : str) (idx : FMIndex) :
  FMIndex_init txt = Ok idx ->
  (forall g, In g txt -> (forall c, In c txt -> ord c <= ord g) ->
     exists v, dict_get (occ_lex_lower idx) g = Some v /\ v + count g txt = len txt) /\
  (forall c v, dict_get (occ_lex_lower idx) c = Some v -> v = count_if (below c) txt) /\
  (forall c1 c2 v1 v2,
     dict_get (occ_lex_lower idx) c1 = Some v1 ->
     dict_get (occ_lex_lower idx) c2 = Some v2 ->
     ord c1 <= ord c2 -> v1 <= v2).
Proof.
  intros H. split; [|split].
  - intros g Hg Hmax. now apply count_table_greatest.
  - intros c v Hv. now destruct (occ_lex_lower_counts _ _ _ _ H Hv).
  - intros c1 c2 v1 v2 H1 H2 Hle.
    destruct (occ_lex_lower_counts _ _ _ _ H H1) as (_ & ->).
    destruct (occ_lex_lower_counts _ _ _ _ H H2) as (_ & ->).
    apply count_if_le. unfold below. intros x Hx.
    apply Z.ltb_lt in Hx. apply Z.ltb_lt. lia.
Qed.

Lemma count_table_invariant_witness :
  exists idx, FMIndex_init (chars "AB$") = Ok idx /\
    (exists v, dict_get (occ_lex_lower idx) "B"%char = Some v /\
               v + count "B"%char (chars "AB$") = len (chars "AB$")) /\
    (forall c1 c2 v1 v2,
       dict_get (occ_lex_lower idx) c1 = Some v1 ->
       dict_get (occ_lex_lower idx) c2 = Some v2 ->
       ord c1 <= ord c2 -> v1 <= v2).
Proof.
  eexists. split; [vm_compute; reflexivity|].
  pose proof (count_table_invariant (chars "AB$") _ eq_refl) as (Hg & _ & Hmono).
  split; [|exact Hmono].
  apply Hg.
  - cbn. auto.
  - intros c Hc. cbn in Hc. destruct Hc as [<-|[<-|[<-|[]]]]; vm_compute; discriminate.
Defined.

(** * Queries *)

(** C8: over a non-empty text of length n the empty pattern matches
    everywhere: [get_range] returns the whole half-open range [0, n),
    [find] returns the whole suffix array, which lists each of the n text
    offsets once, and [contains_substring] answers true. *)
Theorem empty_pattern_matches_everywhere (txt : str) (idx : FMIndex) :
  FMIndex_init txt = Ok idx ->
  txt <> [] ->
  get_range idx [] = (0, len txt) /\
  find idx [] = suffix_array idx /\
  Permutation (find idx []) (range 0 (len txt)) /\
  contains_substring idx [] = true.
Proof.
  intros H Hne. destruct (FMIndex_init_inv _ _ H) as (Ht & Hsa & _).
  assert (Hn : 0 < len txt).
  { pose proof (len_nonneg txt).
    destruct (Z.eq_dec (len txt) 0) as [E|E]; [|lia].
    apply len_nil_iff in E. contradiction. }
  assert (Hr : get_range idx [] = (0, len txt)) by (rewrite get_range_nil; now rewrite Ht).
  assert (Hf : find idx [] = suffix_array idx).
  { rewrite find_eq, Hr. cbn [fst snd].
    destruct (Z.ltb_spec 0 (len txt)); [|lia].
    rewrite <- (length_suffix_array txt), <- Hsa. apply slice_all. }
  split; [exact Hr|]. split; [exact Hf|]. split.
  - rewrite Hf, Hsa. apply suffix_array_perm.
  - rewrite contains_substring_eq, Hr. cbn [fst snd]. now apply Z.ltb_lt.
Qed.

Lemma empty_pattern_matches_everywhere_witness :
  exists idx, FMIndex_init (chars "AB$") = Ok idx /\
    get_range idx [] = (0, 3) /\
    find idx [] = suffix_array idx /\
    Permutation (find idx []) [0; 1; 2] /\
    contains_substring idx [] = true.
Proof.
  eexists. split; [vm_compute; reflexivity|].
  apply (empty_pattern_matches_everywhere (chars "AB$")); [reflexivity|discriminate].
Defined.

(** C4: a pattern holding a symbol outside the alphabet of a built index
    gets an empty range from backward search: [get_range] reports no
    match, [contains_substring] is false and [find] is empty.  The three
    queries are total functions of the index and the pattern: the table
    lookup is guarded by the membership test, a slice never raises, and
    nothing is raised to the caller. *)
Theorem unknown_symbol_never_matches (txt : str) (idx : FMIndex) (p : str) (c : ascii) :
  FMIndex_init txt = Ok idx ->
  In c p ->
  ~ In c (keys (occ_lex_lower idx)) ->
  empty_range (get_range idx p) /\
  contains_substring idx p = false /\
  find idx p = [].
Proof.
  intros _ Hin Hc.
  assert (He : ~ fst (get_range idx p) < snd (get_range idx p)).
  { rewrite get_range_eq. cbn [fst snd].
    pose proof (get_range_loop_unknown idx (rev p) c 0 (len (text idx) - 1)
                  (proj1 (in_rev p c) Hin) Hc). lia. }
  split; [exact He|]. split.
  - rewrite contains_substring_eq. now apply Z.ltb_nlt.
  - rewrite find_eq. apply Z.ltb_nlt in He. now rewrite He.
Qed.

Lemma unknown_symbol_never_matches_witness :
  exists idx, FMIndex_init (chars "ACGTACGA$TACGAGG$") = Ok idx /\
    empty_range (get_range idx (chars "ACNA")) /\
    contains_substring idx (chars "ACNA") = false /\
    find idx (chars "ACNA") = [].
Proof.
  eexists. split; [vm_compute; reflexivity|].
  apply (unknown_symbol_never_matches (chars "ACGTACGA$TACGAGG$") _ _ "N"%char).
  - reflexivity.
  - cbn. auto.
  - cbn. intros [H|[H|[H|[H|[H|[]]]]]]; discriminate H.
Defined.

(** C5: if [get_range p] is the empty range, so is [get_range (c + p)] for
    every symbol [c]: prepending a symbol to a pattern without a match
    gives no match.  This holds of every index value, built or not. *)
Theorem empty_range_stays_empty (self : FMIndex) (p : str) (c : ascii) :
  empty_range (get_range self p) ->
  empty_range (get_range self (c :: p)).
Proof.
  unfold empty_range. rewrite !get_range_eq. cbn [fst snd rev].
  rewrite get_range_loop_snoc. cbv zeta.
  set (r := get_range_loop self (rev p) 0 (len (text self) - 1)).
  intros He.
  destruct (Z.gtb_spec (fst r) (snd r)) as [Hgt|Hle]; [|lia].
  destruct (rev p) eqn:Erev.
  - subst r. cbn [get_range_loop fst snd] in Hgt.
    pose proof (backtrace_step_empty self c 0 (len (text self) - 1)). lia.
  - lia.
Qed.

Lemma empty_range_stays_empty_witness :
  exists idx, FMIndex_init (chars "ACGTACGA$TACGAGG$") = Ok idx /\
    empty_range (get_range idx (chars "GGT")) /\
    empty_range (get_range idx (chars "AGGT")).
Proof.
  eexists. split; [vm_compute; reflexivity|].
  match goal with
  | |- ?A /\ _ => assert (H : A) by (vm_compute; discriminate)
  end.
  split; [exact H|].
  exact (empty_range_stays_empty _ (chars "GGT") "A"%char H).
Defined.

(** C10: the pair [(start, end)] returned by [get_range] always has
    [start <= end]; a range without a match is returned with
    [start = end], never with [start > end].  Inside the scan an empty
    range is always [start = end + 1], which the final [end + 1] turns
    into [start = end].  This holds of every index value and every
    pattern. *)
Theorem get_range_is_ordered (self : FMIndex) (p : str) :
  fst (get_range self p) <= snd (get_range self p) /\
  (empty_range (get_range self p) -> fst (get_range self p) = snd (get_range self p)) /\
  fst (get_range_loop self (rev p) 0 (len (text self) - 1))
    <= snd (get_range_loop self (rev p) 0 (len (text self) - 1)) + 1.
Proof.
  pose proof (get_range_loop_order self (rev p) 0 (len (text self) - 1)) as H.
  pose proof (len_nonneg (text self)) as Hn.
  unfold empty_range. rewrite get_range_eq. cbn [fst snd]. lia.
Qed.

(** * Prefix overlaps *)

Lemma filterM_subset {A : Type} (f : A -> result bool) (l xs : list A) (x : A) :
  filterM f l = Ok xs -> In x xs -> In x l.
Proof.
  revert xs. induction l as [|y l IH]; cbn [filterM]; intros xs H Hx.
  - injection H as <-. contradiction.
  - destruct (f y) as [b|e]; cbn [bind] in H; [|discriminate].
    destruct (filterM f l) as [xs'|e]; cbn [bind] in H; [|discriminate].
    injection H as <-. destruct b.
    + destruct Hx as [<-|Hx]; [now left|right; now apply (IH xs')].
    + right. now apply (IH xs').
Qed.

Lemma mapM_tag_snd {A : Type} (g : A -> result str) (k : Z) (l : list A)
    (l' : list (str * Z)) :
  mapM (fun i => r <- g i ;; Ok (r, k)) l = Ok l' ->
  forall x, In x l' -> snd x = k.
Proof.
  revert l'. induction l as [|i l IH]; cbn [mapM]; intros l' H x Hx.
  - injection H as <-. contradiction.
  - destruct (g i) as [r|e]; cbn [bind] in H; [|discriminate].
    destruct (mapM _ l) as [ys|e]; cbn [bind] in H; [|discriminate].
    injection H as <-. destruct Hx as [<-|Hx]; [reflexivity|]. now apply (IH ys).
Qed.

Section OverlapFacts.
Variable self : FMIndex.

Lemma get_prefix_overlaps_loop_bounds (n m : Z) (rs : str) :
  forall start end_ k acc l,
    get_prefix_overlaps_loop self n m rs start end_ k acc = Ok l ->
    (forall x, In x acc -> m <= snd x < n) ->
    forall x, In x l -> m <= snd x < n.
Proof.
  induction rs as [|c rs IH]; intros start end_ k acc l H Hacc;
    cbn [get_prefix_overlaps_loop] in H.
  - injection H as <-. exact Hacc.
  - destruct (backtrace_step self c start end_) as [s' e'].
    destruct (s' >? e').
    + injection H as <-. exact Hacc.
    + destruct ((m <=? k + 1) && (k + 1 <? n)) eqn:G.
      * destruct (elements_preceeded_by_sep self s' e') as [ov|e];
          cbn [bind] in H; [|discriminate].
        destruct (mapM _ ov) as [ov'|e] eqn:Em; cbn [bind] in H; [|discriminate].
        apply (IH _ _ _ _ _ H). intros x Hx.
        apply in_app_or in Hx as [Hx|Hx]; [auto|].
        rewrite (mapM_tag_snd _ _ _ _ Em x Hx).
        apply andb_true_iff in G as (G1 & G2).
        apply Z.leb_le in G1. apply Z.ltb_lt in G2. lia.
      * exact (IH _ _ _ _ _ H Hacc).
Qed.

(** Both loops of [get_read_at_offset] return when every index they
    visit lies inside the text. *)
Lemma read_before_returns (offset : Z) (js : list Z) :
  (forall j, In j js -> 0 <= offset - j < len (text self)) ->
  forall before, exists r, read_before self offset js before = Ok r.
Proof.
  induction js as [|j js IH]; intros Hjs before; cbn [read_before].
  - eauto.
  - destruct (getitem_returns (text self) (offset - j)) as (a & ->).
    { specialize (Hjs j (or_introl eq_refl)). lia. }
    cbn [bind]. destruct (Ascii.eqb a sep); [eauto|].
    apply IH. intros j' Hj'. apply Hjs. now right.
Qed.

Lemma read_after_returns (offset : Z) (js : list Z) :
  (forall j, In j js -> 0 <= offset + j < len (text self)) ->
  forall after, exists r, read_after self offset js after = Ok r.
Proof.
  induction js as [|j js IH]; intros Hjs after; cbn [read_after].
  - eauto.
  - destruct (getitem_returns (text self) (offset + j)) as (a & ->).
    { specialize (Hjs j (or_introl eq_refl)). lia. }
    cbn [bind]. destruct (Ascii.eqb a sep); [eauto|].
    apply IH. intros j' Hj'. apply Hjs. now right.
Qed.

Lemma get_read_at_offset_returns (offset : Z) :
  0 <= offset < len (text self) ->
  exists r, get_read_at_offset self offset = Ok r.
Proof.
  intros Ho. unfold get_read_at_offset.
  destruct (read_before_returns offset (range 1 (offset + 1))) with (before := @nil ascii)
    as (b & ->).
  { intros j Hj. apply in_range in Hj. lia. }
  cbn [bind].
  destruct (read_after_returns offset (range 0 (len (text self) - offset)))
    with (after := @nil ascii) as (a & ->).
  { intros j Hj. apply in_range in Hj. lia. }
  cbn [bind]. eauto.
Qed.

Lemma preceeded_by_sep_returns (i : Z) :
  0 <= i < len (text self) -> exists b, preceeded_by_sep self i = Ok b.
Proof.
  intros Hi. unfold preceeded_by_sep.
  destruct (getitem_returns (text self) (i - 1)) as (a & ->); [lia|].
  cbn [bind]. eauto.
Qed.

Hypothesis suffix_array_bounds :
  forall i, In i (suffix_array self) -> 0 <= i < len (text self).

Lemma elements_preceeded_by_sep_returns (start end_ : Z) :
  exists l, elements_preceeded_by_sep self start end_ = Ok l /\
            forall i, In i l -> 0 <= i < len (text self).
Proof.
  unfold elements_preceeded_by_sep.
  destruct (filterM_returns (preceeded_by_sep self)
              (slice (suffix_array self) start (end_ + 1))) as (l & Hl).
  { intros i Hi. apply preceeded_by_sep_returns, suffix_array_bounds.
    eapply in_slice. exact Hi. }
  exists l. split; [exact Hl|]. intros i Hi.
  apply suffix_array_bounds. eapply in_slice. eapply filterM_subset; eauto.
Qed.

Lemma get_prefix_overlaps_loop_returns (n m : Z) (rs : str) :
  forall start end_ k acc,
    exists l, get_prefix_overlaps_loop self n m rs start end_ k acc = Ok l.
Proof.
  induction rs as [|c rs IH]; intros start end_ k acc;
    cbn [get_prefix_overlaps_loop].
  - eauto.
  - destruct (backtrace_step self c start end_) as [s' e'].
    destruct (s' >? e'); [eauto|].
    destruct ((m <=? k + 1) && (k + 1 <? n)); [|apply IH].
    destruct (elements_preceeded_by_sep_returns s' e') as (ov & -> & Hov).
    cbn [bind].
    destruct (mapM_returns (fun i => r <- get_read_at_offset self i ;; Ok (r, k + 1)) ov)
      as (ov' & ->).
    { intros i Hi. destruct (get_read_at_offset_returns i (Hov i Hi)) as (r & ->).
      cbn [bind]. eauto. }
    cbn [bind]. apply IH.
Qed.
End OverlapFacts.

(** Whatever the index, the pairs emitted respect the guard of the loop. *)
Lemma get_prefix_overlaps_bounds (self : FMIndex) (p : str) (m : Z) (l : list (str * Z)) :
  get_prefix_overlaps self p m = Ok l ->
  forall x, In x l -> m <= snd x < len p.
Proof.
  intros H.
  apply (get_prefix_overlaps_loop_bounds self _ _ _ _ _ _ _ _ H).
  intros x [].
Qed.

(** On a built index [get_prefix_overlaps] raises nothing. *)
Lemma get_prefix_overlaps_returns (txt : str) (idx : FMIndex) (p : str) (m : Z) :
  FMIndex_init txt = Ok idx ->
  exists l, get_prefix_overlaps idx p m = Ok l.
Proof.
  intros H. destruct (FMIndex_init_inv _ _ H) as (Ht & Hsa & _).
  apply get_prefix_overlaps_loop_returns.
  intros i Hi. rewrite Ht. apply suffix_array_in_range. now rewrite <- Hsa.
Qed.

(** C7: on a built index [get_prefix_overlaps p m] returns, and every
    pair [(read, overlap_len)] it emits has [m <= overlap_len < len p]; a
    match of the whole of [p], of length [len p], is never reported. *)
Theorem overlap_length_within_bounds (txt : str) (idx : FMIndex) (p : str) (m : Z) :
  FMIndex_init txt = Ok idx ->
  exists l, get_prefix_overlaps idx p m = Ok l /\
    forall read overlap_len, In (read, overlap_len) l -> m <= overlap_len < len p.
Proof.
  intros H. destruct (get_prefix_overlaps_returns txt idx p m H) as (l & Hl).
  exists l. split; [exact Hl|]. intros read overlap_len Hin.
  exact (get_prefix_overlaps_bounds idx p m l Hl (read, overlap_len) Hin).
Qed.

Lemma overlap_length_within_bounds_witness :
  exists idx, FMIndex_init (chars "AA$") = Ok idx /\
    get_prefix_overlaps idx (chars "AA") 1 = Ok [(chars "AA", 1)] /\
    1 <= 1 < len (chars "AA").
Proof.
  eexists. split; [vm_compute; reflexivity|].
  match goal with
  | |- get_prefix_overlaps ?i _ _ = _ /\ _ => pose (idx := i)
  end.
  split; [vm_compute; reflexivity|].
  destruct (overlap_length_within_bounds (chars "AA$") idx (chars "AA") 1 eq_refl)
    as (l & Hl & Hbounds).
  apply (Hbounds (chars "AA")).
  vm_compute in Hl. injection Hl as <-. left. reflexivity.
Defined.

Lemma in_find (self : FMIndex) (p : str) (i : Z) :
  In i (find self p) -> In i (suffix_array self).
Proof.
  rewrite find_eq. destruct (_ <? _); [apply in_slice|contradiction].
Qed.

(** C9: the symbol before offset [i] is read as [text[i - 1]], and index
    [-1] is the last symbol of the text; when that is the sentinel,
    offset 0 always counts as preceded by a sentinel.  So
    [elements_preceeded_by_sep] keeps offset 0 whenever its rows hold it,
    and [find_prefixes] keeps it whenever [find] returns it.  Over the
    text AA$, whose only sentinel is its last symbol, the first backward
    step of [get_prefix_overlaps "AA" 1] reaches rows 2..3,
    [elements_preceeded_by_sep] answers offset 0 for them and the read AA
    that starts there is reported with overlap 1; [find_prefixes ""]
    answers offset 0 as well. *)
Theorem offset_zero_counts_as_preceeded (txt : str) (idx : FMIndex) :
  FMIndex_init txt = Ok idx ->
  getitem txt (-1) = Ok sep ->
  preceeded_by_sep idx 0 = Ok true /\
  (forall start end_,
     In 0 (slice (suffix_array idx) start (end_ + 1)) ->
     exists l, elements_preceeded_by_sep idx start end_ = Ok l /\ In 0 l) /\
  (forall p,
     In 0 (find idx p) ->
     exists l, find_prefixes idx p = Ok l /\ In 0 l) /\
  (exists idx',
     FMIndex_init (chars "AA$") = Ok idx' /\
     count sep (text idx') = 1 /\
     backtrace_step idx' "A"%char 0 (len (text idx') - 1) = (2, 3) /\
     elements_preceeded_by_sep idx' 2 3 = Ok [0] /\
     get_read_at_offset idx' 0 = Ok (chars "AA") /\
     get_prefix_overlaps idx' (chars "AA") 1 = Ok [(chars "AA", 1)] /\
     find_prefixes idx' [] = Ok [0]).
Proof.
  intros H Hlast. destruct (FMIndex_init_inv _ _ H) as (Ht & Hsa & _).
  assert (Hzero : preceeded_by_sep idx 0 = Ok true).
  { unfold preceeded_by_sep. rewrite Ht. change (0 - 1) with (-1).
    rewrite Hlast. reflexivity. }
  assert (Hrows : forall l, (forall i, In i l -> In i (suffix_array idx)) ->
            In 0 l -> exists l', filterM (preceeded_by_sep idx) l = Ok l' /\ In 0 l').
  { intros l Hsub Hin.
    destruct (filterM_returns (preceeded_by_sep idx) l) as (l' & Hl').
    - intros i Hi. apply preceeded_by_sep_returns. rewrite Ht.
      apply suffix_array_in_range. rewrite <- Hsa. now apply Hsub.
    - exists l'. split; [exact Hl'|]. exact (filterM_keeps _ _ _ _ Hl' Hin Hzero). }
  split; [exact Hzero|]. split; [|split].
  - intros start end_ Hin. apply Hrows; [|exact Hin].
    intros i Hi. eapply in_slice. exact Hi.
  - intros p Hin. apply Hrows; [|exact Hin].
    intros i Hi. eapply in_find. exact Hi.
  - eexists. split; [vm_compute; reflexivity|].
    repeat split; vm_compute; reflexivity.
Qed.

Lemma offset_zero_counts_as_preceeded_witness :
  exists idx, FMIndex_init (chars "ACGT$") = Ok idx /\
    preceeded_by_sep idx 0 = Ok true /\
    (forall p, In 0 (find idx p) -> exists l, find_prefixes idx p = Ok l /\ In 0 l).
Proof.
  eexists. split; [vm_compute; reflexivity|].
  pose proof (offset_zero_counts_as_preceeded (chars "ACGT$") _ eq_refl eq_refl)
    as (Hzero & _ & Hfind & _).
  split; [exact Hzero|exact Hfind].
Defined.

(** * Backward search with the rank as the spec words it *)

(** The range of a one-symbol pattern over a built index. *)
Lemma get_range_single_symbol (txt : str) (idx : FMIndex) (c : ascii) (v : Z) :
  FMIndex_init txt = Ok idx ->
  txt <> [] ->
  dict_get (occ_lex_lower idx) c = Some v ->
  get_range idx [c] = (v + 1, v + count c txt + 1).
Proof.
  intros H Hne Hv. destruct (FMIndex_init_inv _ _ H) as (Ht & _ & Hb & _ & Hr).
  apply bwt_perm in Hb.
  assert (Hn : 0 < len txt).
  { pose proof (len_nonneg txt).
    destruct (Z.eq_dec (len txt) 0) as [E|E]; [|lia].
    apply len_nil_iff in E. contradiction. }
  rewrite get_range_eq. cbn [rev app]. rewrite get_range_loop_cons.
  cbn [get_range_loop].
  assert (Hstep : backtrace_step idx c 0 (len (text idx) - 1) = (v + 1, count c txt + v)).
  { unfold backtrace_step. rewrite Hv, Hr, Ht. unfold rank_at_row. cbn [reference].
    change (0 - 1 <? 0) with true. cbv iota.
    destruct (Z.ltb_spec (len txt - 1) 0) as [?|_]; [lia|].
    replace (Z.to_nat (len txt - 1 + 1)) with (List.length (bwt idx))
      by (rewrite (Permutation_length Hb); unfold len; lia).
    rewrite firstn_all.
    change (count c (bwt idx)) with (count_if (Ascii.eqb c) (bwt idx)).
    rewrite (count_if_perm _ _ _ Hb). reflexivity. }
  rewrite Hstep. cbn [fst snd]. destruct (_ >? _); cbn [fst snd]; f_equal; lia.
Qed.

(** Over every non-empty text the one-symbol pattern made of the greatest
    symbol of the text gets one offset fewer from [find] than the symbol
    has occurrences: its range ends one row past the suffix array. *)
Lemma find_drops_an_occurrence (txt : str) (idx : FMIndex) (g : ascii) :
  FMIndex_init txt = Ok idx ->
  In g txt ->
  (forall c, In c txt -> ord c <= ord g) ->
  snd (get_range idx [g]) = len txt + 1 /\
  len (find idx [g]) = count g txt - 1.
Proof.
  intros H Hg Hmax.
  assert (Hne : txt <> []) by (intros ->; contradiction).
  destruct (count_table_greatest txt idx g H Hg Hmax) as (v & Hv & Hsum).
  destruct (FMIndex_init_inv _ _ H) as (_ & Hsa & _).
  pose proof (count_nonneg g txt) as Hc.
  assert (Hv0 : 0 <= v).
  { destruct (occ_lex_lower_counts _ _ _ _ H Hv) as (_ & ->). apply count_if_nonneg. }
  assert (Hpos : 0 < count g txt).
  { unfold count. apply in_split in Hg as (l1 & l2 & ->).
    rewrite filter_app. cbn [filter]. rewrite Ascii.eqb_refl, len_app, len_cons.
    pose proof (len_nonneg (filter (Ascii.eqb g) l1)).
    pose proof (len_nonneg (filter (Ascii.eqb g) l2)). lia. }
  rewrite find_eq, (get_range_single_symbol _ _ _ _ H Hne Hv). cbn [fst snd].
  split; [lia|].
  destruct (Z.ltb_spec (v + 1) (v + count g txt + 1)) as [_|?]; [|lia].
  unfold slice, slice_bound. rewrite Hsa, length_suffix_array.
  destruct (Z.ltb_spec (v + 1) 0) as [?|_]; [lia|].
  destruct (Z.ltb_spec (v + count g txt + 1) 0) as [?|_]; [lia|].
  unfold len at 1. rewrite length_firstn, length_skipn.
  pose proof (length_suffix_array txt) as Hlen. unfold len in Hlen at 1.
  lia.
Qed.

(** With the rank structure as the spec words it, an inclusive count, the
    rows of [backtrace_step] lie one row too high.  Over the text A$ the
    pattern A occurs at offset 0, yet the backward step moves the rows to
    [2, 3), past the end of the two-row suffix array, and [find] returns
    nothing.  Over ACGTACGA$TACGAGG$ the pattern ACGA occurs at offsets 4
    and 10, yet [get_range] returns the empty range [10, 10), [find]
    returns nothing and [contains_substring] answers false. *)
Theorem find_misses_occurrences :
  (exists idx, FMIndex_init (chars "A$") = Ok idx /\
     suffix_array idx = [1; 0] /\
     bwt idx = chars "A$" /\
     occ_lex_lower idx = [("$"%char, 0); ("A"%char, 1)] /\
     occurrences (chars "A$") (chars "A") = [0] /\
     backtrace_step idx "A"%char 0 1 = (2, 2) /\
     get_range idx (chars "A") = (2, 3) /\
     find idx (chars "A") = []) /\
  (exists idx, FMIndex_init (chars "ACGTACGA$TACGAGG$") = Ok idx /\
     occurrences (chars "ACGTACGA$TACGAGG$") (chars "ACGA") = [4; 10] /\
     get_range idx (chars "ACGA") = (10, 10) /\
     find idx (chars "ACGA") = [] /\
     contains_substring idx (chars "ACGA") = false).
Proof.
  split; eexists; (split; [vm_compute; reflexivity|]);
    repeat split; vm_compute; reflexivity.
Qed.

(** * Further properties of the code *)

(** ** The order of suffixes *)

Lemma str_leb_total (x y : str) : str_leb x y = true \/ str_leb y x = true.
Proof.
  revert y. induction x as [|a x IH]; intros [|b y]; cbn [str_leb]; auto.
  destruct (Z.ltb_spec (ord a) (ord b)), (Z.ltb_spec (ord b) (ord a)); auto; lia.
Qed.

Lemma str_leb_trans (x y z : str) :
  str_leb x y = true -> str_leb y z = true -> str_leb x z = true.
Proof.
  revert y z. induction x as [|a x IH]; intros [|b y] [|c z]; cbn [str_leb];
    try reflexivity; try discriminate.
  destruct (Z.ltb_spec (ord a) (ord b)), (Z.ltb_spec (ord b) (ord a)),
    (Z.ltb_spec (ord b) (ord c)), (Z.ltb_spec (ord c) (ord b)),
    (Z.ltb_spec (ord a) (ord c)), (Z.ltb_spec (ord c) (ord a));
    try reflexivity; try discriminate; try lia.
  apply IH.
Qed.

Lemma str_leb_antisym (x y : str) :
  str_leb x y = true -> str_leb y x = true -> x = y.
Proof.
  revert y. induction x as [|a x IH]; intros [|b y]; cbn [str_leb];
    try reflexivity; try discriminate.
  destruct (Z.ltb_spec (ord a) (ord b)), (Z.ltb_spec (ord b) (ord a));
    try discriminate; try lia.
  intros H1 H2. assert (a = b) as -> by (apply ord_inj; lia).
  f_equal. now apply IH.
Qed.

Section SortedFacts.
Context {A : Type} (leb : A -> A -> bool).
Hypothesis leb_total : forall x y, leb x y = true \/ leb y x = true.
Hypothesis leb_trans : forall x y z, leb x y = true -> leb y z = true -> leb x z = true.

Lemma insert_sorted (x : A) (l : list A) :
  StronglySorted (fun a b => leb a b = true) l ->
  StronglySorted (fun a b => leb a b = true) (insert leb x l).
Proof.
  induction l as [|y l IH]; intros Hs; cbn [insert].
  - repeat constructor.
  - inversion Hs as [|? ? Hs' Hall]; subst.
    destruct (leb x y) eqn:E.
    + constructor; [assumption|]. constructor; [exact E|].
      eapply Forall_impl; [|exact Hall]. intros z Hz. cbv beta in *. eauto.
    + constructor; [now apply IH|].
      apply Forall_forall. intros z Hz.
      apply (Permutation_in _ (insert_perm leb x l)) in Hz.
      destruct Hz as [<-|Hz].
      * destruct (leb_total x y) as [H|H]; congruence.
      * rewrite Forall_forall in Hall. now apply Hall.
Qed.

Lemma sorted_sorted (l : list A) : StronglySorted (fun a b => leb a b = true) (sorted leb l).
Proof.
  induction l as [|x l IH]; cbn [sorted fold_right].
  - constructor.
  - now apply insert_sorted.
Qed.
End SortedFacts.

Lemma StronglySorted_strengthen {A : Type} (R R' : A -> A -> Prop) (l : list A) :
  StronglySorted R l ->
  NoDup l ->
  (forall x y, In x l -> In y l -> x <> y -> R x y -> R' x y) ->
  StronglySorted R' l.
Proof.
  induction 1 as [|x l Hs IH Hall]; intros Hnd H.
  - constructor.
  - inversion Hnd as [|? ? Hnin Hnd']; subst. constructor.
    + apply IH; [assumption|]. intros a b Ha Hb. apply H; now right.
    + rewrite Forall_forall in *. intros y Hy. apply H.
      * now left.
      * now right.
      * intros ->. contradiction.
      * now apply Hall.
Qed.

Lemma NoDup_range (a b : Z) : NoDup (range a b).
Proof.
  unfold range. apply Finite.Injective_map_NoDup; [|apply seq_NoDup].
  intros x y H. lia.
Qed.

Lemma NoDup_suffix_array (txt : str) : NoDup (create_suffix_array_naive txt).
Proof.
  eapply Permutation_NoDup; [|apply NoDup_range].
  symmetry. apply suffix_array_perm.
Qed.

Lemma slice_from_skipn {A : Type} (l : list A) (i : Z) :
  0 <= i <= len l -> slice_from l i = skipn (Z.to_nat i) l.
Proof.
  intros Hi. unfold slice_from, slice_bound.
  destruct (Z.ltb_spec i 0); [lia|]. now rewrite Z.min_l by lia.
Qed.

Lemma len_slice_from {A : Type} (l : list A) (i : Z) :
  0 <= i <= len l -> len (slice_from l i) = len l - i.
Proof.
  intros Hi. rewrite slice_from_skipn by assumption.
  unfold len in *. rewrite length_skipn. lia.
Qed.

Lemma create_suffix_array_naive_leb_sorted (txt : str) :
  StronglySorted (fun i j => str_leb (slice_from txt i) (slice_from txt j) = true)
    (create_suffix_array_naive txt).
Proof.
  apply (sorted_sorted (fun x y => str_leb (slice_from txt x) (slice_from txt y))).
  - intros x y. apply str_leb_total.
  - intros x y z. apply str_leb_trans.
Qed.

(** X1: the suffix array holds every offset of the text, 0 to
    [len(text) - 1], once, in strictly increasing order of the suffixes
    that start at them. *)
Theorem suffix_array_sorted (txt : str) :
  Permutation (create_suffix_array_naive txt) (range 0 (len txt)) /\
  StronglySorted (fun i j => str_lt (slice_from txt i) (slice_from txt j))
    (create_suffix_array_naive txt).
Proof.
  split; [apply suffix_array_perm|].
  apply StronglySorted_strengthen
    with (R := fun i j => str_leb (slice_from txt i) (slice_from txt j) = true).
  - apply create_suffix_array_naive_leb_sorted.
  - apply NoDup_suffix_array.
  - intros i j Hi Hj Hne Hle. split; [exact Hle|].
    destruct (str_leb (slice_from txt j) (slice_from txt i)) eqn:E; [|reflexivity].
    exfalso. apply Hne.
    apply suffix_array_in_range in Hi, Hj.
    pose proof (f_equal len (str_leb_antisym _ _ Hle E)) as Hlen.
    rewrite !len_slice_from in Hlen by lia. lia.
Qed.

(** X2: when the text ends with a separator and no symbol of the text is
    below the separator, the first row of the suffix array is the offset
    of that final separator. *)
Theorem suffix_array_starts_at_final_sep (body : str) :
  (forall c, In c body -> ord sep <= ord c) ->
  exists rest, create_suffix_array_naive (body ++ [sep]) = len body :: rest.
Proof.
  intros Hlow. set (txt := body ++ [sep]).
  assert (Hn : len txt = len body + 1).
  { subst txt. rewrite len_app, len_cons. reflexivity. }
  pose proof (len_nonneg body) as Hb.
  assert (Hin : In (len body) (create_suffix_array_naive txt)).
  { eapply Permutation_in; [symmetry; apply suffix_array_perm|]. apply in_range. lia. }
  pose proof (create_suffix_array_naive_leb_sorted txt) as Hs.
  destruct (create_suffix_array_naive txt) as [|h rest] eqn:E; [contradiction|].
  destruct (Z.eq_dec h (len body)) as [->|Hne]; [eauto|].
  exfalso. destruct Hin as [Hin|Hin]; [contradiction|].
  inversion Hs as [|? ? _ Hall]; subst. rewrite Forall_forall in Hall.
  pose proof (Hall _ Hin) as Hle.
  assert (Hh : 0 <= h < len txt).
  { apply suffix_array_in_range. rewrite E. now left. }
  rewrite (slice_from_skipn txt (len body)) in Hle by lia.
  rewrite (slice_from_skipn txt h) in Hle by lia.
  assert (Hlast : skipn (Z.to_nat (len body)) txt = [sep]).
  { subst txt. unfold len. rewrite Nat2Z.id, skipn_app, skipn_all, Nat.sub_diag. reflexivity. }
  rewrite Hlast in Hle.
  pose proof (f_equal len (eq_refl (skipn (Z.to_nat h) txt))) as Hlen.
  unfold len in Hlen at 1. rewrite length_skipn in Hlen.
  destruct (skipn (Z.to_nat h) txt) as [|a r] eqn:Esk.
  - change (len (@nil ascii)) with 0 in Hlen. unfold len in Hn, Hh. lia.
  - assert (Ha : In a txt).
    { apply (in_skipn (Z.to_nat h)). rewrite Esk. now left. }
    assert (Hord : ord sep <= ord a).
    { subst txt. apply in_app_or in Ha as [Ha|[<-|[]]]; [now apply Hlow|lia]. }
    cbn [str_leb] in Hle.
    destruct (Z.ltb_spec (ord a) (ord sep)); [lia|].
    destruct (Z.ltb_spec (ord sep) (ord a)); [discriminate|].
    destruct r; [|discriminate].
    change (len [a]) with 1 in Hlen. unfold len in Hn, Hh, Hne. lia.
Qed.

Lemma suffix_array_starts_at_final_sep_witness :
  exists rest, create_suffix_array_naive (chars "ACGT" ++ [sep]) = len (chars "ACGT") :: rest.
Proof.
  apply suffix_array_starts_at_final_sep.
  intros c Hc. cbn in Hc. destruct Hc as [<-|[<-|[<-|[<-|[]]]]]; vm_compute; discriminate.
Defined.

(** ** The transform and the table *)

(** X3: the BWT of a built index is a rearrangement of its text, of the
    same length. *)
Theorem bwt_is_permutation_of_text (txt : str) (idx : FMIndex) :
  FMIndex_init txt = Ok idx ->
  Permutation (bwt idx) txt /\ len (bwt idx) = len txt.
Proof.
  intros H. destruct (FMIndex_init_inv _ _ H) as (_ & _ & Hb & _).
  apply bwt_perm in Hb. split; [exact Hb|].
  unfold len. now rewrite (Permutation_length Hb).
Qed.

Lemma bwt_is_permutation_of_text_witness :
  exists idx, FMIndex_init (chars "ACGTACGA$TACGAGG$") = Ok idx /\
    Permutation (bwt idx) (chars "ACGTACGA$TACGAGG$") /\
    len (bwt idx) = len (chars "ACGTACGA$TACGAGG$").
Proof.
  eexists. split; [vm_compute; reflexivity|].
  apply (bwt_is_permutation_of_text (chars "ACGTACGA$TACGAGG$")). reflexivity.
Defined.

(** X4: [n_less_than] maps every symbol that occurs in the sequence to
    the number of elements of the sequence below it, and holds no other
    key. *)
Theorem n_less_than_counts_lower (letters : str) (c : ascii) :
  dict_get (n_less_than letters) c =
  if in_dec ascii_dec c letters then Some (count_if (below c) letters) else None.
Proof.
  destruct (in_dec ascii_dec c letters) as [Hin|Hnin].
  - now apply n_less_than_get.
  - apply dict_get_None. intros Hk. apply Hnin. exact (proj1 (n_less_than_keys _ _) Hk).
Qed.

Lemma dict_set_fresh {V : Type} (d : dict V) (k : ascii) (v : V) :
  ~ In k (keys d) -> dict_set d k v = d ++ [(k, v)].
Proof.
  induction d as [|[k' v'] d IH]; cbn [dict_set keys map fst app]; intros H.
  - reflexivity.
  - destruct (Ascii.eqb_spec k' k) as [->|_].
    + exfalso. apply H. now left.
    + f_equal. apply IH. intros Hin. apply H. now right.
Qed.

Lemma keys_app {V : Type} (d d' : dict V) : keys (d ++ d') = keys d ++ keys d'.
Proof. apply map_app. Qed.

Lemma n_less_than_loop_running (items : list (ascii * Z)) :
  NoDup (keys items) ->
  forall lower d,
    (forall k, In k (keys items) -> ~ In k (keys d)) ->
    n_less_than_loop items lower d = d ++ running items lower.
Proof.
  induction items as [|[k v] items IH]; intros Hnd lower d Hfresh;
    cbn [n_less_than_loop running].
  - now rewrite app_nil_r.
  - inversion Hnd as [|? ? Hnin Hnd']; subst.
    rewrite dict_set_fresh by (apply Hfresh; now left).
    rewrite IH; [now rewrite <- app_assoc|assumption|].
    intros k' Hk' Hin. rewrite keys_app in Hin.
    apply in_app_or in Hin as [Hin|[<-|[]]].
    + apply (Hfresh k'); [now right|assumption].
    + contradiction.
Qed.

Lemma NoDup_keys_Counter (letters : str) : NoDup (keys (Counter letters)).
Proof. rewrite Counter_fold. apply NoDup_keys_fold_tally. constructor. Qed.

Lemma n_less_than_running (letters : str) :
  n_less_than letters = running (sorted item_leb (Counter letters)) 0.
Proof.
  unfold n_less_than. rewrite n_less_than_loop_running; [reflexivity| |intros k _ []].
  eapply Permutation_NoDup; [|apply NoDup_keys_Counter].
  apply Permutation_map. symmetry. apply sorted_perm.
Qed.

Lemma positive_tally (d : dict Z) (c : ascii) :
  Forall (fun kv => 0 < snd kv) d -> Forall (fun kv => 0 < snd kv) (tally d c).
Proof.
  unfold tally. induction d as [|[k v] d IH]; intros H; cbn [dict_get dict_set].
  - repeat constructor.
  - inversion H as [|? ? Hv Hd]; subst. cbn [snd] in Hv.
    destruct (Ascii.eqb_spec k c) as [->|_].
    + constructor; [cbn [snd]; lia|assumption].
    + constructor; [assumption|now apply IH].
Qed.

Lemma positive_Counter (letters : str) : Forall (fun kv => 0 < snd kv) (Counter letters).
Proof.
  rewrite Counter_fold.
  assert (H : forall d, Forall (fun kv => 0 < snd kv) d ->
                        Forall (fun kv => 0 < snd kv) (fold_left tally letters d)).
  { induction letters as [|c letters IH]; intros d Hd; cbn [fold_left].
    - assumption.
    - apply IH. now apply positive_tally. }
  apply H. constructor.
Qed.

Lemma running_bounds (items : list (ascii * Z)) (lower : Z) :
  Forall (fun kv => 0 < snd kv) items ->
  Forall (fun kv => lower <= snd kv) (running items lower).
Proof.
  revert lower. induction items as [|[k v] items IH]; intros lower H; cbn [running].
  - constructor.
  - inversion H as [|? ? Hv Hi]; subst. cbn [snd] in Hv.
    constructor; [cbn [snd]; lia|].
    eapply Forall_impl; [|apply (IH (lower + v) Hi)]. cbv beta. intros kv Hkv. lia.
Qed.

Lemma running_sorted (items : list (ascii * Z)) (lower : Z) :
  StronglySorted key_lt items ->
  Forall (fun kv => 0 < snd kv) items ->
  StronglySorted (fun x y => ord (fst x) < ord (fst y) /\ snd x < snd y)
    (running items lower).
Proof.
  revert lower. induction items as [|[k v] items IH]; intros lower Hs Hpos; cbn [running].
  - constructor.
  - inversion Hs as [|? ? Hs' Hall]; subst. inversion Hpos as [|? ? Hv Hpos']; subst.
    cbn [snd] in Hv. constructor; [now apply IH|].
    apply Forall_forall. intros [k' v'] Hin. cbn [fst snd]. split.
    + assert (Hk : In k' (keys (running items (lower + v)))) by (apply (in_map fst) in Hin; exact Hin).
      assert (Hkeys : forall it lo, keys (running it lo) = keys it).
      { induction it as [|[a b] it IHit]; intros lo; cbn [running keys map fst];
          [reflexivity|]. f_equal. apply IHit. }
      rewrite Hkeys in Hk. apply in_map_iff in Hk as ([k'' v''] & <- & Hk).
      rewrite Forall_forall in Hall. exact (Hall _ Hk).
    + pose proof (running_bounds items (lower + v) Hpos') as Hb.
      rewrite Forall_forall in Hb. specialize (Hb _ Hin). cbn [snd] in Hb. lia.
Qed.

(** X5: the table [n_less_than] returns lists its keys in strictly
    increasing symbol order, with strictly increasing values. *)
Theorem n_less_than_strictly_increasing (letters : str) :
  StronglySorted (fun x y => ord (fst x) < ord (fst y) /\ snd x < snd y)
    (n_less_than letters).
Proof.
  rewrite n_less_than_running. apply running_sorted.
  - apply sorted_key_sorted, NoDup_keys_Counter.
  - eapply Permutation_Forall; [|apply positive_Counter].
    symmetry. apply sorted_perm.
Qed.

Lemma sorted_dict_ext (d d' : dict Z) :
  StronglySorted key_lt d ->
  StronglySorted key_lt d' ->
  (forall c, dict_get d c = dict_get d' c) ->
  d = d'.
Proof.
  intros Hs. revert d'. induction Hs as [|[k v] d Hs IH Hall]; intros d' Hs' Heq.
  - destruct d' as [|[k' v'] d']; [reflexivity|].
    specialize (Heq k'). cbn [dict_get] in Heq. rewrite Ascii.eqb_refl in Heq. discriminate.
  - destruct Hs' as [|[k' v'] d' Hs' Hall'].
    + specialize (Heq k). cbn [dict_get] in Heq. rewrite Ascii.eqb_refl in Heq. discriminate.
    + rewrite Forall_forall in Hall, Hall'.
      assert (Hlow : forall (e : dict Z) a b c w,
                (forall x, In x e -> key_lt (a, b) x) ->
                dict_get e c = Some w -> ord a < ord c).
      { intros e a b c w He Hc. apply dict_get_in_keys in Hc.
        apply in_map_iff in Hc as ([c' w'] & <- & Hc). exact (He _ Hc). }
      assert (Hk : k = k').
      { pose proof (Heq k) as H1. pose proof (Heq k') as H2.
        cbn [dict_get] in H1, H2. rewrite Ascii.eqb_refl in H1, H2.
        destruct (Ascii.eqb_spec k' k) as [->|Hne1]; [reflexivity|].
        destruct (Ascii.eqb_spec k k') as [->|Hne2]; [reflexivity|].
        symmetry in H1. apply (Hlow d' k' v' k v Hall') in H1.
        apply (Hlow d k v k' v' Hall) in H2. lia. }
      subst k'.
      assert (Hv : v = v').
      { specialize (Heq k). cbn [dict_get] in Heq. rewrite Ascii.eqb_refl in Heq. congruence. }
      subst v'. f_equal. apply IH; [assumption|].
      intros c. specialize (Heq c). cbn [dict_get] in Heq.
      destruct (Ascii.eqb_spec k c) as [Ekc|_]; [|exact Heq].
      subst c. clear Heq.
      destruct (dict_get d k) as [w|] eqn:E1.
      { apply (Hlow d k v k w Hall) in E1. lia. }
      destruct (dict_get d' k) as [w|] eqn:E2; [|reflexivity].
      apply (Hlow d' k v k w Hall') in E2. lia.
Qed.

Lemma n_less_than_key_sorted (letters : str) : StronglySorted key_lt (n_less_than letters).
Proof.
  assert (Hweak : forall d : dict Z,
            StronglySorted (fun x y => ord (fst x) < ord (fst y) /\ snd x < snd y) d ->
            StronglySorted key_lt d).
  { induction 1 as [|x d _ IH Hall]; constructor; [assumption|].
    eapply Forall_impl; [|exact Hall]. intros y (Hxy & _). exact Hxy. }
  apply Hweak. rewrite n_less_than_running. apply running_sorted.
  - apply sorted_key_sorted, NoDup_keys_Counter.
  - eapply Permutation_Forall; [|apply positive_Counter].
    symmetry. apply sorted_perm.
Qed.

(** [n_less_than] sees only how often each symbol occurs, not where. *)
Lemma n_less_than_perm (l l' : str) :
  Permutation l l' -> n_less_than l = n_less_than l'.
Proof.
  intros Hp. apply sorted_dict_ext; try apply n_less_than_key_sorted.
  intros c. destruct (in_dec ascii_dec c l) as [H|H].
  - rewrite (n_less_than_get l c H).
    rewrite (n_less_than_get l' c (Permutation_in _ Hp H)).
    f_equal. now apply count_if_perm.
  - assert (H' : ~ In c l').
    { intros H'. apply H. exact (Permutation_in _ (Permutation_sym Hp) H'). }
    transitivity (@None Z); [|symmetry]; apply dict_get_None; intros Hk.
    + apply H. apply (proj1 (n_less_than_keys l c) Hk).
    + apply H'. apply (proj1 (n_less_than_keys l' c) Hk).
Qed.

(** X6: the table of a built index, computed from the BWT, is the table
    of the text itself: [occ_lex_lower] is [n_less_than(text)]. *)
Theorem occ_lex_lower_is_table_of_text (txt : str) (idx : FMIndex) :
  FMIndex_init txt = Ok idx ->
  occ_lex_lower idx = n_less_than txt.
Proof.
  intros H. destruct (FMIndex_init_inv _ _ H) as (_ & _ & Hb & -> & _).
  apply n_less_than_perm. now apply bwt_perm.
Qed.

Lemma occ_lex_lower_is_table_of_text_witness :
  exists idx, FMIndex_init (chars "ACGTACGA$TACGAGG$") = Ok idx /\
    occ_lex_lower idx = n_less_than (chars "ACGTACGA$TACGAGG$").
Proof.
  eexists. split; [vm_compute; reflexivity|].
  apply (occ_lex_lower_is_table_of_text (chars "ACGTACGA$TACGAGG$")). reflexivity.
Defined.

(** ** What [find] and [get_range] return *)

Lemma NoDup_slice {A : Type} (l : list A) (a b : Z) : NoDup l -> NoDup (slice l a b).
Proof.
  intros H. unfold slice.
  set (l' := skipn (Z.to_nat (slice_bound (len l) a)) l).
  assert (H' : NoDup l').
  { subst l'. rewrite <- (firstn_skipn (Z.to_nat (slice_bound (len l) a)) l) in H.
    exact (NoDup_app_remove_l _ _ H). }
  rewrite <- (firstn_skipn (Z.to_nat (slice_bound (len l) b - slice_bound (len l) a)) l') in H'.
  exact (NoDup_app_remove_r _ _ H').
Qed.

(** X7: on a built index [find] returns offsets of the text, each at
    most once; and whenever it returns any, [contains_substring] answers
    true for the same pattern. *)
Theorem find_returns_distinct_offsets (txt : str) (idx : FMIndex) (p : str) :
  FMIndex_init txt = Ok idx ->
  NoDup (find idx p) /\
  (forall i, In i (find idx p) -> 0 <= i < len txt) /\
  (find idx p <> [] -> contains_substring idx p = true).
Proof.
  intros H. destruct (FMIndex_init_inv _ _ H) as (_ & Hsa & _).
  split; [|split].
  - rewrite find_eq. destruct (_ <? _); [|constructor].
    apply NoDup_slice. rewrite Hsa. apply NoDup_suffix_array.
  - intros i Hi. apply in_find in Hi. rewrite Hsa in Hi.
    now apply suffix_array_in_range.
  - rewrite find_eq, contains_substring_eq.
    destruct (_ <? _); [reflexivity|congruence].
Qed.

Lemma find_returns_distinct_offsets_witness :
  exists idx, FMIndex_init (chars "ACGTACGA$TACGAGG$") = Ok idx /\
    NoDup (find idx (chars "G")) /\
    (forall i, In i (find idx (chars "G")) -> 0 <= i < 17) /\
    (find idx (chars "G") <> [] -> contains_substring idx (chars "G") = true).
Proof.
  eexists. split; [vm_compute; reflexivity|].
  apply (find_returns_distinct_offsets (chars "ACGTACGA$TACGAGG$")). reflexivity.
Defined.

Lemma get_range_loop_app_broken (self : FMIndex) (l1 l2 : str) (start end_ : Z) :
  l1 <> [] ->
  fst (get_range_loop self l1 start end_) > snd (get_range_loop self l1 start end_) ->
  get_range_loop self (l1 ++ l2) start end_ = get_range_loop self l1 start end_.
Proof.
  revert start end_. induction l1 as [|c l1 IH]; intros start end_ Hne Hgt; [congruence|].
  cbn [app]. rewrite !get_range_loop_cons in *.
  destruct (Z.gtb_spec (fst (backtrace_step self c start end_))
                       (snd (backtrace_step self c start end_))) as [H|H].
  - reflexivity.
  - destruct l1 as [|c' l1]; [cbn [get_range_loop fst snd] in Hgt; lia|].
    apply IH; [discriminate|exact Hgt].
Qed.

(** X8: a non-empty pattern without a match gets the same range however
    it is extended to the left: the scan stops where it stopped for the
    pattern alone, and [find] stays empty. *)
Theorem get_range_stops_at_first_miss (self : FMIndex) (p q : str) :
  p <> [] ->
  empty_range (get_range self p) ->
  get_range self (q ++ p) = get_range self p /\ find self (q ++ p) = [].
Proof.
  intros Hne He. unfold empty_range in He. rewrite get_range_eq in He. cbn [fst snd] in He.
  assert (Hr : get_range self (q ++ p) = get_range self p).
  { rewrite !get_range_eq, rev_app_distr, get_range_loop_app_broken; [reflexivity| |lia].
    intros E. apply Hne. rewrite <- (rev_involutive p), E. reflexivity. }
  split; [exact Hr|].
  rewrite find_eq, Hr, get_range_eq. cbn [fst snd].
  destruct (Z.ltb_spec (fst (get_range_loop self (rev p) 0 (len (text self) - 1)))
              (snd (get_range_loop self (rev p) 0 (len (text self) - 1)) + 1));
    [lia|reflexivity].
Qed.

Lemma get_range_stops_at_first_miss_witness :
  exists idx, FMIndex_init (chars "ACGTACGA$TACGAGG$") = Ok idx /\
    get_range idx (chars "ACGT" ++ chars "GGT") = get_range idx (chars "GGT") /\
    find idx (chars "ACGT" ++ chars "GGT") = [].
Proof.
  eexists. split; [vm_compute; reflexivity|].
  apply get_range_stops_at_first_miss; [discriminate|].
  vm_compute. discriminate.
Defined.

(** ** Reads *)

Lemma getitem_raises {A : Type} (l : list A) (i : Z) :
  i < - len l \/ len l <= i -> getitem l i = Raise IndexError.
Proof.
  intros Hi. unfold getitem. pose proof (len_nonneg l).
  destruct (Z.ltb_spec i 0).
  - destruct (Z.leb_spec 0 (i + len l)); [lia|reflexivity].
  - destruct (Z.leb_spec 0 i); [|reflexivity].
    destruct (Z.ltb_spec i (len l)); [lia|reflexivity].
Qed.

Lemma skipn_head {A : Type} (q : nat) (l l' : list A) (x : A) :
  skipn q l = x :: l' -> nth_error l q = Some x /\ skipn (S q) l = l'.
Proof.
  revert l. induction q as [|q IH]; intros [|y l] H; cbn in H; try discriminate.
  - injection H as -> ->. split; reflexivity.
  - apply IH in H as (H1 & H2). split; assumption.
Qed.

Lemma firstn_last {A : Type} (q : nat) (l : list A) (x : A) :
  nth_error l q = Some x -> firstn (S q) l = firstn q l ++ [x].
Proof.
  revert l. induction q as [|q IH]; intros [|y l] H; cbn in H; try discriminate.
  - injection H as ->. reflexivity.
  - cbn [firstn app]. f_equal. now apply IH.
Qed.

Lemma upto_sep_no_sep (l : str) : ~ In sep (upto_sep l).
Proof.
  induction l as [|c l IH]; cbn [upto_sep]; [intros []|].
  destruct (Ascii.eqb_spec c sep) as [->|Hc]; [intros []|].
  intros [H|H]; [congruence|contradiction].
Qed.

Lemma upto_sep_stop (l1 l2 : str) :
  ~ In sep l1 ->
  l2 = [] \/ (exists r, l2 = sep :: r) ->
  upto_sep (l1 ++ l2) = l1.
Proof.
  induction l1 as [|c l1 IH]; intros Hn Hl2; cbn [app upto_sep].
  - destruct Hl2 as [->|(r & ->)]; [reflexivity|].
    cbn [upto_sep]. now rewrite Ascii.eqb_refl.
  - destruct (Ascii.eqb_spec c sep) as [->|_].
    + exfalso. apply Hn. now left.
    + f_equal. apply IH; [|assumption]. intros H. apply Hn. now right.
Qed.

Section ReadFacts.
Variable self : FMIndex.

(** The second loop reads the text from [offset] on. *)
Lemma read_after_scan (offset : Z) (l : str) :
  forall (q : nat) (a : Z) (after : str),
    skipn q (text self) = l ->
    offset + a = Z.of_nat q ->
    read_after self offset (range a (a + len l)) after = Ok (after ++ upto_sep l).
Proof.
  induction l as [|x l IH]; intros q a after Hl Hq.
  - change (len (@nil ascii)) with 0. rewrite Z.add_0_r.
    unfold range. rewrite Z.sub_diag. cbn. now rewrite app_nil_r.
  - rewrite len_cons, range_cons by (pose proof (len_nonneg l); lia).
    cbn [read_after upto_sep]. rewrite Hq, getitem_nat.
    apply skipn_head in Hl as (-> & Hl). cbn [bind].
    destruct (Ascii.eqb x sep); [now rewrite app_nil_r|].
    replace (a + (len l + 1)) with (a + 1 + len l) by lia.
    rewrite (IH (S q) (a + 1) (after ++ [x]) Hl) by lia.
    now rewrite <- app_assoc.
Qed.

(** The first loop reads the text leftwards from just before [offset]. *)
Lemma read_before_scan (offset : Z) (l : str) :
  forall (q : nat) (a : Z) (before : str),
    (q <= List.length (text self))%nat ->
    rev (firstn q (text self)) = l ->
    offset - a = Z.of_nat q - 1 ->
    read_before self offset (range a (a + len l)) before = Ok (before ++ upto_sep l).
Proof.
  induction l as [|x l IH]; intros q a before Hle Hl Hq.
  - change (len (@nil ascii)) with 0. rewrite Z.add_0_r.
    unfold range. rewrite Z.sub_diag. cbn. now rewrite app_nil_r.
  - destruct q as [|q]; [discriminate|].
    destruct (nth_error (text self) q) as [y|] eqn:Ey;
      [|apply nth_error_None in Ey; lia].
    rewrite (firstn_last _ _ _ Ey), rev_app_distr in Hl. cbn [rev app] in Hl.
    injection Hl as -> Hl.
    rewrite len_cons, range_cons by (pose proof (len_nonneg l); lia).
    cbn [read_before upto_sep].
    replace (offset - a) with (Z.of_nat q) by lia.
    rewrite getitem_nat, Ey. cbn [bind].
    destruct (Ascii.eqb x sep); [now rewrite app_nil_r|].
    replace (a + (len l + 1)) with (a + 1 + len l) by lia.
    rewrite (IH q (a + 1) (before ++ [x])) by (try assumption; lia).
    now rewrite <- app_assoc.
Qed.

(** Inside the text [get_read_at_offset] joins the symbols between the
    separator before [offset] and the separator from [offset] on. *)
Lemma get_read_at_offset_scan (offset : Z) :
  0 <= offset <= len (text self) ->
  get_read_at_offset self offset =
  Ok (rev (upto_sep (rev (firstn (Z.to_nat offset) (text self))))
      ++ upto_sep (skipn (Z.to_nat offset) (text self))).
Proof.
  intros Ho. unfold get_read_at_offset.
  assert (Hq : (Z.to_nat offset <= List.length (text self))%nat) by (unfold len in Ho; lia).
  replace (offset + 1) with (1 + len (rev (firstn (Z.to_nat offset) (text self))))
    by (unfold len; rewrite length_rev, length_firstn; lia).
  rewrite (read_before_scan offset _ (Z.to_nat offset) 1 [] Hq eq_refl) by lia.
  cbn [bind app].
  replace (len (text self) - offset) with (0 + len (skipn (Z.to_nat offset) (text self)))
    by (unfold len; rewrite length_skipn; unfold len in Ho; lia).
  rewrite (read_after_scan offset _ (Z.to_nat offset) 0 [] eq_refl) by lia.
  reflexivity.
Qed.

Lemma read_before_no_sep (offset : Z) (js : list Z) :
  forall before r,
    read_before self offset js before = Ok r -> ~ In sep before -> ~ In sep r.
Proof.
  induction js as [|j js IH]; intros before r H Hb; cbn [read_before] in H.
  - now injection H as <-.
  - destruct (getitem (text self) (offset - j)) as [c|e]; cbn [bind] in H; [|discriminate].
    destruct (Ascii.eqb_spec c sep) as [_|Hc].
    + now injection H as <-.
    + apply (IH _ _ H). intros Hin. apply in_app_or in Hin as [Hin|[Hin|[]]]; congruence.
Qed.

Lemma read_after_no_sep (offset : Z) (js : list Z) :
  forall after r,
    read_after self offset js after = Ok r -> ~ In sep after -> ~ In sep r.
Proof.
  induction js as [|j js IH]; intros after r H Hb; cbn [read_after] in H.
  - now injection H as <-.
  - destruct (getitem (text self) (offset + j)) as [c|e]; cbn [bind] in H; [|discriminate].
    destruct (Ascii.eqb_spec c sep) as [_|Hc].
    + now injection H as <-.
    + apply (IH _ _ H). intros Hin. apply in_app_or in Hin as [Hin|[Hin|[]]]; congruence.
Qed.

Lemma get_read_at_offset_no_sep (offset : Z) (r : str) :
  get_read_at_offset self offset = Ok r -> ~ In sep r.
Proof.
  unfold get_read_at_offset. intros H.
  destruct (read_before self offset _ []) as [b|e] eqn:Eb; cbn [bind] in H; [|discriminate].
  destruct (read_after self offset _ []) as [a|e] eqn:Ea; cbn [bind] in H; [|discriminate].
  injection H as <-. intros Hin. apply in_app_or in Hin as [Hin|Hin].
  - apply in_rev in Hin. exact (read_before_no_sep _ _ _ _ Eb (fun F => F) Hin).
  - exact (read_after_no_sep _ _ _ _ Ea (fun F => F) Hin).
Qed.
End ReadFacts.

(** X9: [get_read_at_offset] returns the read around the offset.  When
    the text is [pre ++ read ++ post], the read holds no separator, [pre]
    is empty or ends with a separator and [post] is empty or starts with
    one, every offset from the first symbol of the read to the position
    just after its last symbol gives back exactly [read]. *)
Theorem get_read_at_offset_returns_the_read (self : FMIndex)
    (pre read post : str) (offset : Z) :
  text self = pre ++ read ++ post ->
  ~ In sep read ->
  pre = [] \/ (exists pre', pre = pre' ++ [sep]) ->
  post = [] \/ (exists post', post = sep :: post') ->
  len pre <= offset <= len pre + len read ->
  get_read_at_offset self offset = Ok read.
Proof.
  intros Ht Hread Hpre Hpost Ho.
  pose proof (len_nonneg pre) as Hp0. pose proof (len_nonneg read) as Hr0.
  pose proof (len_nonneg post) as Hq0.
  rewrite get_read_at_offset_scan by (rewrite Ht, !len_app; lia).
  rewrite Ht.
  set (j := Z.to_nat (offset - len pre)).
  assert (Hoff : Z.to_nat offset = (List.length pre + j)%nat) by (subst j; unfold len in *; lia).
  assert (Hj : (j <= List.length read)%nat) by (subst j; unfold len in *; lia).
  rewrite Hoff.
  rewrite firstn_app_2, skipn_app, skipn_all2, Nat.add_comm, Nat.add_sub by lia.
  cbn [app]. rewrite firstn_app, skipn_app.
  replace (j - List.length read)%nat with 0%nat by lia. cbn [firstn skipn].
  rewrite app_nil_r, rev_app_distr.
  rewrite upto_sep_stop.
  - rewrite upto_sep_stop; [|intros H; apply Hread; eapply in_skipn; exact H|exact Hpost].
    rewrite rev_involutive, firstn_skipn. reflexivity.
  - intros H. apply in_rev in H. apply Hread. eapply in_firstn. exact H.
  - destruct Hpre as [->|(pre' & ->)]; [now left|right].
    rewrite rev_app_distr. cbn [rev app]. eauto.
Qed.

Lemma get_read_at_offset_returns_the_read_witness :
  exists idx, FMIndex_init (chars "ACGTACGA$TACGAGG$") = Ok idx /\
    get_read_at_offset idx 12 = Ok (chars "TACGAGG").
Proof.
  eexists. split; [vm_compute; reflexivity|].
  apply (get_read_at_offset_returns_the_read _ (chars "ACGTACGA$") (chars "TACGAGG") (chars "$")).
  - reflexivity.
  - cbn. intros H. repeat (destruct H as [H|H]; [discriminate H|]). exact H.
  - right. exists (chars "ACGTACGA"). reflexivity.
  - right. exists []. reflexivity.
  - vm_compute. split; discriminate.
Defined.

(** X10: [get_read_at_offset] returns for exactly the offsets from
    [-len(text)] to [len(text)]; for any other offset the first symbol it
    looks up is outside the text and it raises [IndexError].  A read it
    returns never holds a separator. *)
Theorem get_read_at_offset_bounds (self : FMIndex) (offset : Z) :
  (if (- len (text self) <=? offset) && (offset <=? len (text self))
   then exists r, get_read_at_offset self offset = Ok r
   else get_read_at_offset self offset = Raise IndexError) /\
  (forall r, get_read_at_offset self offset = Ok r -> ~ In sep r).
Proof.
  split; [|apply get_read_at_offset_no_sep].
  pose proof (len_nonneg (text self)) as Hn.
  destruct (Z.leb_spec (- len (text self)) offset) as [Hlo|Hlo];
    destruct (Z.leb_spec offset (len (text self))) as [Hhi|Hhi]; cbn [andb].
  - unfold get_read_at_offset.
    assert (Hb : forall js, (forall j, In j js -> - len (text self) <= offset - j < len (text self)) ->
               forall b, exists r, read_before self offset js b = Ok r).
    { induction js as [|j js IH]; intros Hjs b; cbn [read_before]; [eauto|].
      destruct (getitem_returns (text self) (offset - j)) as (c & ->);
        [apply Hjs; now left|].
      cbn [bind]. destruct (Ascii.eqb c sep); [eauto|].
      apply IH. intros j' Hj'. apply Hjs. now right. }
    assert (Ha : forall js, (forall j, In j js -> - len (text self) <= offset + j < len (text self)) ->
               forall b, exists r, read_after self offset js b = Ok r).
    { induction js as [|j js IH]; intros Hjs b; cbn [read_after]; [eauto|].
      destruct (getitem_returns (text self) (offset + j)) as (c & ->);
        [apply Hjs; now left|].
      cbn [bind]. destruct (Ascii.eqb c sep); [eauto|].
      apply IH. intros j' Hj'. apply Hjs. now right. }
    destruct (Hb (range 1 (offset + 1))) with (b := @nil ascii) as (b & ->).
    { intros j Hj. apply in_range in Hj. lia. }
    cbn [bind].
    destruct (Ha (range 0 (len (text self) - offset))) with (b := @nil ascii) as (a & ->).
    { intros j Hj. apply in_range in Hj. lia. }
    cbn [bind]. eauto.
  - unfold get_read_at_offset. rewrite range_cons by lia. cbn [read_before].
    rewrite getitem_raises by lia. reflexivity.
  - unfold get_read_at_offset.
    unfold range at 1. replace (Z.to_nat (offset + 1 - 1)) with 0%nat by lia.
    cbn [seq map read_before bind].
    rewrite range_cons by lia. cbn [read_after].
    rewrite Z.add_0_r, getitem_raises by lia. reflexivity.
  - lia.
Qed.

(** ** Prefix overlaps, suffix by suffix *)

Lemma range_nil (a b : Z) : b <= a -> range a b = [].
Proof. intros H. unfold range. now replace (Z.to_nat (b - a)) with 0%nat by lia. Qed.

Lemma bind_Ok {A : Type} (m : result A) : (x <- m ;; Ok x) = m.
Proof. now destruct m. Qed.

Lemma collect_nil {A B : Type} (f : A -> result (list B)) (ks : list A) :
  (forall k, In k ks -> f k = Ok []) -> collect f ks = Ok [].
Proof.
  induction ks as [|k ks IH]; intros H; cbn [collect]; [reflexivity|].
  rewrite (H k) by now left. cbn [bind].
  rewrite IH by (intros k' Hk'; apply H; now right). reflexivity.
Qed.

Lemma collect_ext_in {A B : Type} (f g : A -> result (list B)) (ks : list A) :
  (forall k, In k ks -> f k = g k) -> collect f ks = collect g ks.
Proof.
  induction ks as [|k ks IH]; intros H; cbn [collect]; [reflexivity|].
  rewrite (H k) by now left.
  rewrite IH by (intros k' Hk'; apply H; now right). reflexivity.
Qed.

Lemma filter_guard_range (m n : Z) :
  forall a,
    filter (fun k => (m <=? k) && (k <? n)) (range a (n + 1)) =
    filter (fun k => m <=? k) (range a n).
Proof.
  intros a. remember (Z.to_nat (n + 1 - a)) as d eqn:Ed. revert a Ed.
  induction d as [|d IH]; intros a Ed.
  - rewrite !range_nil by lia. reflexivity.
  - destruct (Z.eq_dec a n) as [->|Hne].
    + rewrite (range_cons n (n + 1)) by lia.
      rewrite !range_nil by lia. cbn [filter].
      rewrite Z.ltb_irrefl, andb_false_r. reflexivity.
    + rewrite (range_cons a (n + 1)), (range_cons a n) by lia. cbn [filter].
      destruct (Z.ltb_spec a n); [|lia]. rewrite andb_true_r.
      rewrite IH by lia. reflexivity.
Qed.

Lemma filter_none {A : Type} (f : A -> bool) (l : list A) :
  (forall x, In x l -> f x = false) -> filter f l = [].
Proof.
  induction l as [|x l IH]; intros H; cbn [filter]; [reflexivity|].
  rewrite (H x) by now left. apply IH. intros y Hy. apply H. now right.
Qed.

Section OverlapsBySuffix.
Variable self : FMIndex.

(** A pattern whose scan has stopped on an empty range is found nowhere. *)
Lemma reads_at_prefixes_broken (x : str) (k : Z) :
  fst (get_range_loop self x 0 (len (text self) - 1))
    > snd (get_range_loop self x 0 (len (text self) - 1)) ->
  reads_at_prefixes self (rev x) k = Ok [].
Proof.
  intros H. unfold reads_at_prefixes, find_prefixes.
  rewrite find_eq, get_range_eq, rev_involutive. cbn [fst snd].
  destruct (Z.ltb_spec (fst (get_range_loop self x 0 (len (text self) - 1)))
              (snd (get_range_loop self x 0 (len (text self) - 1)) + 1)); [lia|].
  reflexivity.
Qed.

(** A pattern whose scan ends on rows [start..end] has its prefixes among
    the elements of those rows. *)
Lemma reads_at_prefixes_rows (x : str) (k start end_ : Z) :
  get_range_loop self x 0 (len (text self) - 1) = (start, end_) ->
  start <= end_ ->
  reads_at_prefixes self (rev x) k =
  (overlaps <- elements_preceeded_by_sep self start end_ ;;
   mapM (fun i => r <- get_read_at_offset self i ;; Ok (r, k)) overlaps).
Proof.
  intros H Hle. unfold reads_at_prefixes, find_prefixes, elements_preceeded_by_sep.
  rewrite find_eq, get_range_eq, rev_involutive, H. cbn [fst snd].
  destruct (Z.ltb_spec start (end_ + 1)); [reflexivity|lia].
Qed.

Lemma get_prefix_overlaps_loop_collect (n m : Z) (rs : str) :
  forall (all done : str) (start end_ : Z) (acc : list (str * Z)),
    all = done ++ rs ->
    get_range_loop self done 0 (len (text self) - 1) = (start, end_) ->
    done = [] \/ start <= end_ ->
    get_prefix_overlaps_loop self n m rs start end_ (len done) acc =
    (l <- collect (fun k => reads_at_prefixes self (rev (firstn (Z.to_nat k) all)) k)
           (filter (fun k => (m <=? k) && (k <? n))
              (range (len done + 1) (len done + len rs + 1))) ;;
     Ok (acc ++ l)).
Proof.
  induction rs as [|c rs IH]; intros all done start end_ acc Hall Hloop Hinv.
  - change (len (@nil ascii)) with 0. rewrite range_nil by lia.
    cbn. now rewrite app_nil_r.
  - pose proof (len_nonneg done) as Hd0. pose proof (len_nonneg rs) as Hr0.
    assert (Hall' : all = (done ++ [c]) ++ rs) by (rewrite <- app_assoc; exact Hall).
    assert (Hlen' : len (done ++ [c]) = len done + 1).
    { rewrite len_app, len_cons. reflexivity. }
    assert (Hstep : get_range_loop self (done ++ [c]) 0 (len (text self) - 1)
                    = backtrace_step self c start end_).
    { rewrite get_range_loop_snoc, Hloop. cbv zeta. cbn [fst snd].
      destruct (Z.gtb_spec start end_) as [Hgt|_]; [|reflexivity].
      destruct Hinv as [->|Hle]; [|lia].
      cbn [get_range_loop] in Hloop. injection Hloop as <- <-. reflexivity. }
    cbn [get_prefix_overlaps_loop].
    destruct (backtrace_step self c start end_) as [s' e'] eqn:Est.
    rewrite len_cons, range_cons by lia.
    assert (Hfirst : forall k, len done + 1 <= k ->
              firstn (Z.to_nat k) all
              = (done ++ [c]) ++ firstn (Z.to_nat k - List.length (done ++ [c])) rs).
    { intros k Hk. rewrite Hall', firstn_app. f_equal.
      apply firstn_all2. unfold len in Hlen', Hk. lia. }
    destruct (Z.gtb_spec s' e') as [Hgt|Hle].
    + rewrite collect_nil; [cbn; now rewrite app_nil_r|].
      intros k Hk. apply filter_In in Hk as (Hk & _).
      assert (Hk' : len done + 1 <= k).
      { destruct Hk as [<-|Hk]; [lia|]. apply in_range in Hk. lia. }
      apply reads_at_prefixes_broken.
      rewrite (Hfirst k Hk'), get_range_loop_app_broken.
      * rewrite Hstep. cbn [fst snd]. lia.
      * destruct done; discriminate.
      * rewrite Hstep. cbn [fst snd]. lia.
    + assert (Hhead : firstn (Z.to_nat (len done + 1)) all = done ++ [c]).
      { rewrite Hfirst by lia.
        replace (Z.to_nat (len done + 1) - List.length (done ++ [c]))%nat with 0%nat
          by (unfold len in *; lia).
        cbn [firstn]. apply app_nil_r. }
      replace (len done + 1 + 1) with (len (done ++ [c]) + 1) by lia.
      replace (len done + (len rs + 1) + 1) with (len (done ++ [c]) + len rs + 1) by lia.
      cbn [filter].
      destruct ((m <=? len done + 1) && (len done + 1 <? n)) eqn:G.
      * cbn [collect]. rewrite Hhead.
        rewrite (reads_at_prefixes_rows (done ++ [c]) (len done + 1) s' e') by (assumption || lia).
        destruct (elements_preceeded_by_sep self s' e') as [ov|err]; cbn [bind]; [|reflexivity].
        destruct (mapM _ ov) as [ov'|err]; cbn [bind]; [|reflexivity].
        rewrite <- Hlen'.
        rewrite (IH all (done ++ [c]) s' e' (acc ++ ov') Hall' Hstep) by (right; lia).
        destruct (collect _ _) as [ls|err]; cbn [bind]; [|reflexivity].
        now rewrite app_assoc.
      * rewrite <- Hlen'.
        apply (IH all (done ++ [c]) s' e' acc Hall' Hstep). right. lia.
Qed.

End OverlapsBySuffix.

(** X11: [get_prefix_overlaps p m] is [find_prefixes] run on the proper
    suffixes of [p], shortest first: for every [k] from 1 to [len p - 1]
    that is at least [m], the reads at the offsets
    [find_prefixes (last k symbols of p)], each paired with [k], in that
    order; the two raise alike.  This holds of every index value. *)
Theorem get_prefix_overlaps_by_suffixes (self : FMIndex) (p : str) (m : Z) :
  get_prefix_overlaps self p m =
  collect (fun k => reads_at_prefixes self (suffix_of k p) k)
    (filter (fun k => m <=? k) (range 1 (len p))).
Proof.
  unfold get_prefix_overlaps.
  change 0 with (len (@nil ascii)) at 2.
  rewrite (get_prefix_overlaps_loop_collect self (len p) m (rev p) (rev p) [] 0
             (len (text self) - 1) []) by (reflexivity || now left).
  cbn [app]. rewrite bind_Ok.
  change (len (@nil ascii)) with 0. cbn [Z.add].
  replace (len (rev p)) with (len p) by (unfold len; now rewrite length_rev).
  rewrite filter_guard_range.
  apply collect_ext_in. intros k Hk. apply filter_In in Hk as (Hk & _).
  apply in_range in Hk. f_equal.
  unfold suffix_of. rewrite slice_from_skipn by lia.
  rewrite firstn_rev, rev_involutive. f_equal. unfold len. lia.
Qed.

(** X12: when the minimum overlap is at least the length of the pattern
    (so for the empty pattern with any minimum from 0 on),
    [get_prefix_overlaps] returns the empty list and raises nothing,
    whatever the index. *)
Theorem get_prefix_overlaps_none_when_min_too_long (self : FMIndex) (p : str) (m : Z) :
  len p <= m ->
  get_prefix_overlaps self p m = Ok [].
Proof.
  intros H. unfold get_prefix_overlaps.
  change 0 with (len (@nil ascii)) at 2.
  rewrite (get_prefix_overlaps_loop_collect self (len p) m (rev p) (rev p) [] 0
             (len (text self) - 1) []) by (reflexivity || now left).
  rewrite filter_none; [reflexivity|].
  intros k _. destruct (Z.leb_spec m k); [|reflexivity].
  destruct (Z.ltb_spec k (len p)); [lia|reflexivity].
Qed.

Lemma get_prefix_overlaps_none_when_min_too_long_witness :
  exists idx, FMIndex_init (chars "AA$") = Ok idx /\
    get_prefix_overlaps idx (chars "AA") 2 = Ok [].
Proof.
  eexists. split; [vm_compute; reflexivity|].
  apply get_prefix_overlaps_none_when_min_too_long. vm_compute. discriminate.
Defined.

(** ** What the reported pairs are *)

Lemma filterM_passes {A : Type} (f : A -> result bool) (l xs : list A) (x : A) :
  filterM f l = Ok xs -> In x xs -> f x = Ok true.
Proof.
  revert xs. induction l as [|y l IH]; cbn [filterM]; intros xs H Hx.
  - injection H as <-. contradiction.
  - destruct (f y) as [b|e] eqn:Ey; cbn [bind] in H; [|discriminate].
    destruct (filterM f l) as [xs'|e]; cbn [bind] in H; [|discriminate].
    injection H as <-. destruct b.
    + destruct Hx as [<-|Hx]; [exact Ey|now apply (IH xs')].
    + now apply (IH xs').
Qed.

Lemma mapM_tag_origin {A : Type} (g : A -> result str) (k : Z) (l : list A)
    (l' : list (str * Z)) :
  mapM (fun i => r <- g i ;; Ok (r, k)) l = Ok l' ->
  forall x, In x l' -> exists i, In i l /\ g i = Ok (fst x).
Proof.
  revert l'. induction l as [|i l IH]; cbn [mapM]; intros l' H x Hx.
  - injection H as <-. contradiction.
  - destruct (g i) as [r|e] eqn:Ei; cbn [bind] in H; [|discriminate].
    destruct (mapM _ l) as [ys|e]; cbn [bind] in H; [|discriminate].
    injection H as <-. destruct Hx as [<-|Hx].
    + exists i. split; [now left|exact Ei].
    + destruct (IH ys eq_refl x Hx) as (i' & Hi' & Hg). exists i'. split; [now right|exact Hg].
Qed.

Lemma StronglySorted_app {A : Type} (R : A -> A -> Prop) (l1 l2 : list A) :
  StronglySorted R l1 ->
  StronglySorted R l2 ->
  (forall x y, In x l1 -> In y l2 -> R x y) ->
  StronglySorted R (l1 ++ l2).
Proof.
  induction 1 as [|x l1 Hs IH Hall]; intros H2 Hc; cbn [app]; [assumption|].
  constructor.
  - apply IH; [assumption|]. intros a b Ha Hb. apply Hc; [now right|assumption].
  - apply Forall_app. split; [assumption|].
    apply Forall_forall. intros y Hy. apply Hc; [now left|assumption].
Qed.

Lemma StronglySorted_same {A : Type} (R : A -> A -> Prop) (l : list A) :
  (forall x y, In x l -> In y l -> R x y) -> StronglySorted R l.
Proof.
  induction l as [|x l IH]; intros H; constructor.
  - apply IH. intros a b Ha Hb. apply H; now right.
  - apply Forall_forall. intros y Hy. apply H; [now left|now right].
Qed.

Section ReportedPairs.
Variable self : FMIndex.

Lemma get_prefix_overlaps_loop_reported (n m : Z) (rs : str) :
  forall start end_ k acc l,
    get_prefix_overlaps_loop self n m rs start end_ k acc = Ok l ->
    (forall x, In x acc -> reported self x) ->
    forall x, In x l -> reported self x.
Proof.
  induction rs as [|c rs IH]; intros start end_ k acc l H Hacc;
    cbn [get_prefix_overlaps_loop] in H.
  - injection H as <-. exact Hacc.
  - destruct (backtrace_step self c start end_) as [s' e'].
    destruct (s' >? e').
    + injection H as <-. exact Hacc.
    + destruct ((m <=? k + 1) && (k + 1 <? n)).
      * destruct (elements_preceeded_by_sep self s' e') as [ov|e] eqn:Eov;
          cbn [bind] in H; [|discriminate].
        destruct (mapM _ ov) as [ov'|e] eqn:Em; cbn [bind] in H; [|discriminate].
        apply (IH _ _ _ _ _ H). intros x Hx.
        apply in_app_or in Hx as [Hx|Hx]; [auto|].
        destruct (mapM_tag_origin _ _ _ _ Em x Hx) as (i & Hi & Hr).
        split; [exact (get_read_at_offset_no_sep self i _ Hr)|].
        exists i. unfold elements_preceeded_by_sep in Eov. split; [|split].
        -- eapply in_slice. eapply filterM_subset; eauto.
        -- eapply filterM_passes; eauto.
        -- exact Hr.
      * exact (IH _ _ _ _ _ H Hacc).
Qed.

Lemma get_prefix_overlaps_loop_ordered (n m : Z) (rs : str) :
  forall start end_ k acc l,
    get_prefix_overlaps_loop self n m rs start end_ k acc = Ok l ->
    StronglySorted (fun x y : str * Z => snd x <= snd y) acc ->
    (forall x, In x acc -> snd x <= k) ->
    StronglySorted (fun x y : str * Z => snd x <= snd y) l.
Proof.
  induction rs as [|c rs IH]; intros start end_ k acc l H Hs Hacc;
    cbn [get_prefix_overlaps_loop] in H.
  - injection H as <-. exact Hs.
  - destruct (backtrace_step self c start end_) as [s' e'].
    destruct (s' >? e').
    + injection H as <-. exact Hs.
    + destruct ((m <=? k + 1) && (k + 1 <? n)).
      * destruct (elements_preceeded_by_sep self s' e') as [ov|e];
          cbn [bind] in H; [|discriminate].
        destruct (mapM _ ov) as [ov'|e] eqn:Em; cbn [bind] in H; [|discriminate].
        pose proof (mapM_tag_snd _ _ _ _ Em) as Htag.
        apply (IH _ _ _ _ _ H).
        -- apply StronglySorted_app; [assumption| |].
           ++ apply StronglySorted_same. intros x y Hx Hy.
              rewrite (Htag x Hx), (Htag y Hy). lia.
           ++ intros x y Hx Hy. rewrite (Htag y Hy). specialize (Hacc x Hx). lia.
        -- intros x Hx. apply in_app_or in Hx as [Hx|Hx].
           ++ specialize (Hacc x Hx). lia.
           ++ rewrite (Htag x Hx). lia.
      * apply (IH _ _ _ _ _ H Hs). intros x Hx. specialize (Hacc x Hx). lia.
Qed.
End ReportedPairs.

(** X13: every read [get_prefix_overlaps] reports is what
    [get_read_at_offset] returns at an entry of the suffix array whose
    preceding symbol [text[i - 1]] is the separator, and holds no
    separator itself.  This holds of every index value. *)
Theorem get_prefix_overlaps_reports_reads (self : FMIndex) (p : str) (m : Z)
    (l : list (str * Z)) (read : str) (overlap_len : Z) :
  get_prefix_overlaps self p m = Ok l ->
  In (read, overlap_len) l ->
  ~ In sep read /\
  exists i, In i (suffix_array self) /\
            preceeded_by_sep self i = Ok true /\
            get_read_at_offset self i = Ok read.
Proof.
  intros H Hin.
  exact (get_prefix_overlaps_loop_reported self _ _ _ _ _ _ _ _ H
           (fun x (Hx : In x []) => match Hx with end) (read, overlap_len) Hin).
Qed.

Lemma get_prefix_overlaps_reports_reads_witness :
  exists idx, FMIndex_init (chars "AA$") = Ok idx /\
    ~ In sep (chars "AA") /\
    exists i, In i (suffix_array idx) /\
              preceeded_by_sep idx i = Ok true /\
              get_read_at_offset idx i = Ok (chars "AA").
Proof.
  eexists. split; [vm_compute; reflexivity|].
  match goal with
  | |- _ /\ (exists i, In i (suffix_array ?x) /\ _) => pose (idx := x)
  end.
  apply (get_prefix_overlaps_reports_reads idx (chars "AA") 1 [(chars "AA", 1)] (chars "AA") 1).
  - vm_compute. reflexivity.
  - left. reflexivity.
Defined.

(** X14: [get_prefix_overlaps] reports its pairs in non-decreasing order
    of overlap length, so the last pair of a read carries its longest
    overlap.  This holds of every index value. *)
Theorem get_prefix_overlaps_ordered_by_length (self : FMIndex) (p : str) (m : Z)
    (l : list (str * Z)) :
  get_prefix_overlaps self p m = Ok l ->
  StronglySorted (fun x y => snd x <= snd y) l.
Proof.
  intros H.
  apply (get_prefix_overlaps_loop_ordered self _ _ _ _ _ _ _ _ H).
  - constructor.
  - intros x [].
Qed.

Lemma get_prefix_overlaps_ordered_by_length_witness :
  exists idx, FMIndex_init (chars "A$") = Ok idx /\
    get_prefix_overlaps idx (chars "A$$") 0 = Ok [(chars "A", 1); (chars "A", 2)] /\
    StronglySorted (fun x y : str * Z => snd x <= snd y) [(chars "A", 1); (chars "A", 2)].
Proof.
  eexists. split; [vm_compute; reflexivity|].
  match goal with
  | |- get_prefix_overlaps ?x _ _ = _ /\ _ => pose (idx := x)
  end.
  split; [vm_compute; reflexivity|].
  apply (get_prefix_overlaps_ordered_by_length idx (chars "A$$") 0).
  vm_compute. reflexivity.
Defined.

(** ** Offsets preceded by a separator *)

Lemma filterM_complete {A : Type} (f : A -> result bool) (l : list A) :
  (forall x, In x l -> exists b, f x = Ok b) ->
  exists xs, filterM f l = Ok xs /\
             forall x, In x xs <-> In x l /\ f x = Ok true.
Proof.
  intros H. destruct (filterM_returns f l H) as (xs & Hxs).
  exists xs. split; [exact Hxs|]. intros x. split.
  - intros Hx. split; [eapply filterM_subset; eauto|eapply filterM_passes; eauto].
  - intros (Hx & Hf). eapply filterM_keeps; eauto.
Qed.

(** X15: on a built index [find_prefixes] raises nothing and returns
    exactly the offsets of [find] whose preceding symbol [text[i - 1]] is
    the separator. *)
Theorem find_prefixes_selects_from_find (txt : str) (idx : FMIndex) (p : str) :
  FMIndex_init txt = Ok idx ->
  exists l, find_prefixes idx p = Ok l /\
            forall i, In i l <-> In i (find idx p) /\ getitem txt (i - 1) = Ok sep.
Proof.
  intros H. destruct (FMIndex_init_inv _ _ H) as (Ht & Hsa & _).
  destruct (filterM_complete (preceeded_by_sep idx) (find idx p)) as (l & Hl & Hiff).
  { intros i Hi. apply preceeded_by_sep_returns. rewrite Ht.
    apply suffix_array_in_range. rewrite <- Hsa. now apply in_find in Hi. }
  exists l. split; [exact Hl|]. intros i. rewrite Hiff.
  unfold preceeded_by_sep. rewrite Ht.
  destruct (getitem txt (i - 1)) as [c|e]; cbn [bind].
  - destruct (Ascii.eqb_spec c sep) as [E|E].
    + rewrite E. tauto.
    + split; intros (Hi & Hc); exfalso; [discriminate Hc|]. injection Hc as Hc. contradiction.
  - split; intros (_ & Hc); discriminate Hc.
Qed.

Lemma find_prefixes_selects_from_find_witness :
  exists idx, FMIndex_init (chars "AA$") = Ok idx /\
    exists l, find_prefixes idx [] = Ok l /\
      forall i, In i l <-> In i (find idx []) /\ getitem (chars "AA$") (i - 1) = Ok sep.
Proof.
  eexists. split; [vm_compute; reflexivity|].
  apply (find_prefixes_selects_from_find (chars "AA$")). reflexivity.
Defined.

(** X16: at an offset of the text that counts as preceded by a separator
    [get_read_at_offset] returns the symbols from that offset up to the
    next separator, or to the end of the text: the read starts at the
    offset. *)
Theorem get_read_at_offset_starts_at_prefix (self : FMIndex) (i : Z) :
  0 <= i <= len (text self) ->
  preceeded_by_sep self i = Ok true ->
  get_read_at_offset self i = Ok (upto_sep (skipn (Z.to_nat i) (text self))).
Proof.
  intros Hi Hp. rewrite get_read_at_offset_scan by assumption.
  replace (upto_sep (rev (firstn (Z.to_nat i) (text self)))) with (@nil ascii);
    [reflexivity|].
  destruct (Z.to_nat i) as [|q] eqn:Eq; [reflexivity|].
  unfold preceeded_by_sep in Hp.
  replace (i - 1) with (Z.of_nat q) in Hp by lia.
  rewrite getitem_nat in Hp.
  destruct (nth_error (text self) q) as [c|] eqn:Ec; cbn [bind] in Hp; [|discriminate].
  injection Hp as Hc. apply Ascii.eqb_eq in Hc.
  rewrite (firstn_last _ _ _ Ec), rev_app_distr. cbn [rev app upto_sep].
  now rewrite Hc, Ascii.eqb_refl.
Qed.

Lemma get_read_at_offset_starts_at_prefix_witness :
  exists idx, FMIndex_init (chars "ACGTACGA$TACGAGG$") = Ok idx /\
    get_read_at_offset idx 9 = Ok (upto_sep (skipn (Z.to_nat 9) (text idx))).
Proof.
  eexists. split; [vm_compute; reflexivity|].
  apply get_read_at_offset_starts_at_prefix; [vm_compute; split; discriminate|].
  vm_compute. reflexivity.
Defined.

(** * Backward search with a rank numbered from 0 *)

(** ** Strings against a pattern *)

Lemma cls_range (p x : str) : 0 <= cls p x <= 2.
Proof.
  revert x. induction p as [|a p IH]; intros x; cbn [cls]; [lia|].
  destruct x as [|b x]; [lia|].
  destruct (ord b <? ord a); [lia|]. destruct (ord a <? ord b); [lia|]. apply IH.
Qed.

Lemma cls_mono (p x y : str) : str_leb x y = true -> cls p x <= cls p y.
Proof.
  revert x y. induction p as [|a p IH]; intros x y H; cbn [cls]; [lia|].
  destruct x as [|b x].
  - destruct y as [|b' y]; [lia|].
    destruct (ord b' <? ord a); [lia|]. destruct (ord a <? ord b'); [lia|].
    apply cls_range.
  - destruct y as [|b' y]; [discriminate|]. cbn [str_leb] in H.
    pose proof (cls_range p x). pose proof (cls_range p y).
    destruct (Z.ltb_spec (ord b) (ord b')), (Z.ltb_spec (ord b') (ord b)),
      (Z.ltb_spec (ord b) (ord a)), (Z.ltb_spec (ord a) (ord b)),
      (Z.ltb_spec (ord b') (ord a)), (Z.ltb_spec (ord a) (ord b'));
      try lia; try discriminate.
    now apply IH.
Qed.

Lemma cls_prefix (p x : str) : cls p x = 1 <-> firstn (List.length p) x = p.
Proof.
  revert x. induction p as [|a p IH]; intros x; cbn [cls List.length firstn].
  - tauto.
  - destruct x as [|b x]; [split; [intros ?; lia|discriminate]|].
    destruct (Z.ltb_spec (ord b) (ord a)).
    + split; [intros ?; lia|]. intros E. injection E as E _. subst. lia.
    + destruct (Z.ltb_spec (ord a) (ord b)).
      * split; [intros ?; lia|]. intros E. injection E as E _. subst. lia.
      * assert (b = a) as -> by (apply ord_inj; lia).
        rewrite IH. split; [intros ->; reflexivity|]. intros E. now injection E.
Qed.

(** A string that starts with [a ++ q] starts with [q] after [a]. *)
Lemma cls_app (a q x : str) :
  cls (a ++ q) x = 1 -> cls q (skipn (List.length a) x) = 1.
Proof.
  revert x. induction a as [|h a IH]; intros x H; cbn [app List.length skipn]; [exact H|].
  cbn [cls app] in H. destruct x as [|b x]; [lia|].
  destruct (ord b <? ord h); [lia|]. destruct (ord h <? ord b); [lia|].
  now apply IH.
Qed.

(** ** Rows of a sorted list *)

Section SortedRows.
Context {A : Type} (f : A -> Z).

Lemma sorted_firstn_filter (l : list A) (v : Z) :
  StronglySorted (fun x y => f x <= f y) l ->
  firstn (List.length (filter (fun x => f x <? v) l)) l = filter (fun x => f x <? v) l.
Proof.
  induction 1 as [|x l Hs IH Hall]; [reflexivity|]. cbn [filter].
  destruct (Z.ltb_spec (f x) v) as [Hlt|Hge].
  - cbn [List.length firstn]. now rewrite IH.
  - rewrite filter_none; [reflexivity|].
    rewrite Forall_forall in Hall. intros y Hy. apply Z.ltb_ge.
    specialize (Hall y Hy). lia.
Qed.

Lemma sorted_filter_split (l : list A) :
  StronglySorted (fun x y => f x <= f y) l ->
  filter (fun x => f x <? 2) l =
  filter (fun x => f x <? 1) l ++ filter (fun x => f x =? 1) l.
Proof.
  induction 1 as [|x l Hs IH Hall]; [reflexivity|]. cbn [filter].
  rewrite Forall_forall in Hall.
  destruct (Z.ltb_spec (f x) 1), (Z.ltb_spec (f x) 2), (Z.eqb_spec (f x) 1); try lia.
  - cbn [app]. now rewrite IH.
  - rewrite IH, (filter_none (fun y => f y <? 1) l); [reflexivity|].
    intros y Hy. apply Z.ltb_ge. specialize (Hall y Hy). lia.
  - exact IH.
Qed.

(** The rows from the first that reaches 1 to the last below 2 are the
    rows at 1. *)
Lemma sorted_rows_at_one (l : list A) :
  StronglySorted (fun x y => f x <= f y) l ->
  let n1 := List.length (filter (fun x => f x <? 1) l) in
  let n2 := List.length (filter (fun x => f x <? 2) l) in
  firstn (n2 - n1) (skipn n1 l) = filter (fun x => f x =? 1) l /\ (n1 <= n2)%nat.
Proof.
  intros Hs. cbv zeta.
  pose proof (sorted_firstn_filter l 2 Hs) as H2.
  rewrite (sorted_filter_split l Hs) in *.
  remember (filter (fun x => f x <? 1) l) as X eqn:EX.
  remember (filter (fun x => f x =? 1) l) as Y eqn:EY.
  clear EX EY. rewrite length_app in *.
  split; [|lia].
  replace (List.length X + List.length Y - List.length X)%nat with (List.length Y) by lia.
  rewrite <- (firstn_skipn (List.length X + List.length Y) l) at 1.
  rewrite H2, <- app_assoc, skipn_app, skipn_all, Nat.sub_diag.
  cbn [skipn app]. rewrite firstn_app, firstn_all, Nat.sub_diag.
  cbn [firstn]. apply app_nil_r.
Qed.
End SortedRows.

Lemma len_filter_perm {A : Type} (f : A -> bool) (l l' : list A) :
  Permutation l l' -> len (filter f l) = len (filter f l').
Proof.
  induction 1 as [|x l l' _ IH|x y l|l l' l'' _ IH1 _ IH2]; cbn [filter].
  - reflexivity.
  - destruct (f x); [rewrite !len_cons|]; lia.
  - destruct (f x), (f y); rewrite ?len_cons; lia.
  - congruence.
Qed.

Lemma len_filter_map {A B : Type} (g : A -> B) (f : B -> bool) (l : list A) :
  len (filter f (map g l)) = len (filter (fun x => f (g x)) l).
Proof.
  induction l as [|x l IH]; cbn [map filter]; [reflexivity|].
  destruct (f (g x)); [rewrite !len_cons|]; lia.
Qed.

Lemma len_filter_ext_in {A : Type} (f g : A -> bool) (l : list A) :
  (forall x, In x l -> f x = g x) -> len (filter f l) = len (filter g l).
Proof.
  intros H. f_equal. apply filter_ext_in. exact H.
Qed.

Lemma len_filter_filter {A : Type} (f g : A -> bool) (l : list A) :
  len (filter f (filter g l)) = len (filter (fun x => g x && f x) l).
Proof.
  induction l as [|x l IH]; cbn [filter]; [reflexivity|].
  destruct (g x); cbn [filter andb]; [|exact IH].
  destruct (f x); [rewrite !len_cons|]; lia.
Qed.

(** ** Offsets and suffixes *)

Lemma nth_error_skipn {A : Type} (k : nat) (l : list A) (b : A) :
  nth_error l k = Some b -> skipn k l = b :: skipn (S k) l.
Proof.
  revert l. induction k as [|k IH]; intros [|x l] H; cbn in H; try discriminate.
  - now injection H as ->.
  - cbn [skipn]. now apply IH.
Qed.

Lemma slice_from_step (txt : str) (j : Z) :
  0 <= j < len txt ->
  exists b, getitem txt j = Ok b /\ slice_from txt j = b :: slice_from txt (j + 1).
Proof.
  intros Hj. rewrite !slice_from_skipn by lia.
  assert (Hg : getitem txt j =
               match nth_error txt (Z.to_nat j) with
               | Some a => Ok a
               | None => Raise IndexError
               end).
  { rewrite <- getitem_nat. f_equal. lia. }
  rewrite Hg.
  destruct (nth_error txt (Z.to_nat j)) as [b|] eqn:E.
  - exists b. split; [reflexivity|].
    replace (Z.to_nat (j + 1)) with (S (Z.to_nat j)) by lia.
    now apply nth_error_skipn.
  - apply nth_error_None in E. unfold len in Hj. lia.
Qed.

Lemma range_shift (a b : Z) : range (a + 1) (b + 1) = map (fun i => i + 1) (range a b).
Proof.
  unfold range. rewrite map_map. replace (b + 1 - (a + 1)) with (b - a) by lia.
  apply map_ext. intros k. lia.
Qed.

Lemma range_snoc (a b : Z) : a <= b -> range a (b + 1) = range a b ++ [b].
Proof.
  intros H. unfold range.
  replace (Z.to_nat (b + 1 - a)) with (Z.to_nat (b - a) + 1)%nat by lia.
  rewrite seq_app, map_app. cbn [seq map]. do 2 f_equal. lia.
Qed.

Lemma tails_range (txt : str) : map (slice_from txt) (range 0 (len txt)) = tails txt.
Proof.
  induction txt as [|b t IH]; [reflexivity|].
  pose proof (len_nonneg t) as Hn.
  rewrite len_cons, range_cons by lia. cbn [map tails]. f_equal.
  rewrite (range_shift 0 (len t)), map_map, <- IH.
  apply map_ext_in. intros i Hi. apply in_range in Hi.
  rewrite !slice_from_skipn by (rewrite ?len_cons; lia).
  replace (Z.to_nat (i + 1)) with (S (Z.to_nat i)) by lia. reflexivity.
Qed.

Lemma getitem_last_inv {A : Type} (l : list A) (a : A) :
  getitem l (-1) = Ok a -> exists body, l = body ++ [a].
Proof.
  intros H. destruct (list_eq_dec (fun x y : unit => match x, y with tt, tt => left eq_refl end)
                        (map (fun _ => tt) l) []) as [E|E].
  - destruct l; [discriminate H|discriminate E].
  - assert (Hne : l <> []) by (intros ->; now apply E).
    destruct (exists_last Hne) as (body & x & ->).
    rewrite getitem_last in H. injection H as ->. now exists body.
Qed.

(** ** Counting suffixes symbol by symbol *)

Lemma tails_count (c : ascii) (q : str) (v : Z) (t : str) :
  1 <= v <= 2 ->
  len (filter (led_by c q v) (tails t)) + count_if (below c) t =
  len (filter (fun x => cls (c :: q) x <? v) (tails t)).
Proof.
  intros Hv. induction t as [|b t IH]; [reflexivity|].
  cbn [tails filter led_by].
  change (cls (c :: q) (b :: t))
    with (if ord b <? ord c then 0 else if ord c <? ord b then 2 else cls q t).
  rewrite count_if_cons. unfold below at 1.
  pose proof (cls_range q t) as Hr.
  destruct (Z.ltb_spec (ord b) (ord c)) as [H1|H1].
  - destruct (Ascii.eqb_spec c b) as [->|_]; [lia|]. cbn [andb].
    destruct (Z.ltb_spec 0 v); [|lia]. rewrite len_cons. lia.
  - destruct (Z.ltb_spec (ord c) (ord b)) as [H2|H2].
    + destruct (Ascii.eqb_spec c b) as [->|_]; [lia|]. cbn [andb].
      destruct (Z.ltb_spec 2 v); [lia|]. lia.
    + assert (c = b) as -> by (apply ord_inj; lia).
      rewrite Ascii.eqb_refl. cbn [andb].
      destruct (cls q t <? v); [rewrite !len_cons|]; lia.
Qed.

Lemma count_firstn_mapM (f : Z -> result ascii) (c : ascii) (l : list Z) :
  forall (ys : str) (k : nat),
    mapM f l = Ok ys ->
    count c (firstn k ys) =
    len (filter (fun i => match f i with Ok b => Ascii.eqb c b | Raise _ => false end)
           (firstn k l)).
Proof.
  induction l as [|i l IH]; intros ys k H; cbn [mapM] in H.
  - injection H as <-. now rewrite !firstn_nil.
  - destruct (f i) as [b|e] eqn:Ei; cbn [bind] in H; [|discriminate].
    destruct (mapM f l) as [ys'|e]; cbn [bind] in H; [|discriminate].
    injection H as <-. destruct k as [|k]; [reflexivity|].
    cbn [firstn filter]. rewrite Ei. unfold count. cbn [filter].
    fold (count c (firstn k ys')). specialize (IH ys' k eq_refl).
    destruct (Ascii.eqb c b); [rewrite !len_cons|]; unfold count in *; lia.
Qed.

(** The rows whose BWT symbol is [c] and whose suffix stands below [v]
    are as many as the suffixes led by [c] with a rest below [v]. *)
Lemma pre_count (body : str) (c : ascii) (q : str) (v : Z) :
  c <> sep \/ q = [] ->
  let txt := body ++ [sep] in
  len (filter (fun i => (cls q (slice_from txt i) <? v) && pre_is txt c i)
         (range 0 (len txt))) =
  len (filter (led_by c q v) (tails txt)).
Proof.
  intros Hc txt.
  assert (Hn : len txt = len body + 1) by (subst txt; now rewrite len_app, len_cons).
  pose proof (len_nonneg body) as Hb.
  rewrite <- tails_range, len_filter_map.
  rewrite Hn at 1. rewrite range_cons by lia.
  rewrite (range_shift 0 (len body)).
  rewrite Hn, (range_snoc 0 (len body)) by lia.
  cbn [filter]. rewrite filter_app, len_app.
  assert (Hlast : slice_from txt (len body) = [sep]).
  { rewrite slice_from_skipn by lia. subst txt. unfold len.
    rewrite Nat2Z.id, skipn_app, skipn_all, Nat.sub_diag. reflexivity. }
  assert (Hzero : slice_from txt 0 = txt) by (now rewrite slice_from_skipn by lia).
  assert (Hpre0 : pre_is txt c 0 = Ascii.eqb c sep).
  { unfold pre_is. change (0 - 1) with (-1). subst txt. now rewrite getitem_last. }
  assert (Hedge : ((cls q (slice_from txt 0) <? v) && pre_is txt c 0)
                  = led_by c q v (slice_from txt (len body))).
  { rewrite Hlast, Hzero, Hpre0. cbn [led_by].
    destruct Hc as [Hc| ->].
    - destruct (Ascii.eqb_spec c sep); [contradiction|]. now rewrite andb_false_r.
    - cbn [cls]. apply andb_comm. }
  assert (Hmid : len (filter (fun i => (cls q (slice_from txt i) <? v) && pre_is txt c i)
                        (map (fun i => i + 1) (range 0 (len body))))
                 = len (filter (fun x => led_by c q v (slice_from txt x)) (range 0 (len body)))).
  { rewrite len_filter_map. apply len_filter_ext_in. intros j Hj. apply in_range in Hj.
    destruct (slice_from_step txt j) as (b & Hb1 & Hb2); [lia|].
    rewrite Hb2. cbn [led_by]. unfold pre_is.
    replace (j + 1 - 1) with j by lia. rewrite Hb1. apply andb_comm. }
  cbn [filter]. rewrite <- Hedge.
  destruct ((cls q (slice_from txt 0) <? v) && pre_is txt c 0);
    rewrite ?len_cons; change (len (@nil Z)) with 0; lia.
Qed.

(** ** Rows of the suffix array against a pattern *)

Lemma StronglySorted_weaken {A : Type} (R R' : A -> A -> Prop) (l : list A) :
  (forall x y, R x y -> R' x y) -> StronglySorted R l -> StronglySorted R' l.
Proof.
  intros H. induction 1 as [|x l _ IH Hall]; constructor; [assumption|].
  eapply Forall_impl; [|exact Hall]. intros y. apply H.
Qed.

Lemma suffix_array_cls_sorted (txt q : str) :
  StronglySorted (fun i j => cls q (slice_from txt i) <= cls q (slice_from txt j))
    (create_suffix_array_naive txt).
Proof.
  eapply StronglySorted_weaken; [|apply create_suffix_array_naive_leb_sorted].
  intros i j. apply cls_mono.
Qed.

Lemma rows_below_range (txt : str) (v : Z) (q : str) :
  rows_below txt v q = len (filter (fun x => cls q x <? v) (tails txt)).
Proof.
  unfold rows_below.
  rewrite (len_filter_perm _ _ _ (suffix_array_perm txt)).
  now rewrite <- tails_range, len_filter_map.
Qed.

Lemma rows_below_nonneg (txt : str) (v : Z) (q : str) : 0 <= rows_below txt v q.
Proof. apply len_nonneg. Qed.

(** The rows that start with [q] lie between the two counts. *)
Lemma rows_at_one (txt q : str) :
  rows_below txt 2 q =
  rows_below txt 1 q
  + len (filter (fun i => cls q (slice_from txt i) =? 1) (create_suffix_array_naive txt)).
Proof.
  unfold rows_below.
  rewrite (sorted_filter_split (fun i => cls q (slice_from txt i)) _
             (suffix_array_cls_sorted txt q)).
  apply len_app.
Qed.

Lemma slice_nat {A : Type} (l : list A) (a b : nat) :
  (a <= b <= List.length l)%nat ->
  slice l (Z.of_nat a) (Z.of_nat b) = firstn (b - a) (skipn a l).
Proof.
  intros H. unfold slice, slice_bound, len.
  destruct (Z.ltb_spec (Z.of_nat a) 0); [lia|].
  destruct (Z.ltb_spec (Z.of_nat b) 0); [lia|].
  rewrite !Z.min_l by lia. f_equal; [lia|]. f_equal. lia.
Qed.

Lemma slice_rows_at_one (txt q : str) :
  slice (create_suffix_array_naive txt) (rows_below txt 1 q) (rows_below txt 2 q) =
  filter (fun i => cls q (slice_from txt i) =? 1) (create_suffix_array_naive txt).
Proof.
  destruct (sorted_rows_at_one (fun i => cls q (slice_from txt i)) _
              (suffix_array_cls_sorted txt q)) as (H & Hle).
  cbv zeta in H. rewrite <- H. unfold rows_below, len.
  apply slice_nat. split; [exact Hle|apply filter_length_le].
Qed.

Lemma rows_below_step (txt : str) (idx : FMIndex) (body : str) (c : ascii) (q : str) (v : Z) :
  FMIndex_init txt = Ok idx ->
  txt = body ++ [sep] ->
  c <> sep \/ q = [] ->
  1 <= v <= 2 ->
  rows_below txt v (c :: q) =
  count_if (below c) txt + count c (firstn (Z.to_nat (rows_below txt v q)) (bwt idx)).
Proof.
  intros H Ht Hc Hv. destruct (FMIndex_init_inv _ _ H) as (_ & _ & Hb & _).
  rewrite rows_below_range, <- tails_count by assumption.
  rewrite (count_firstn_mapM _ c _ _ _ Hb).
  change (fun i => match getitem txt (i - 1) with
                   | Ok b => Ascii.eqb c b
                   | Raise _ => false
                   end) with (pre_is txt c).
  unfold rows_below at 1. unfold len at 3. rewrite Nat2Z.id.
  rewrite (sorted_firstn_filter (fun i => cls q (slice_from txt i)) _ v
             (suffix_array_cls_sorted txt q)).
  rewrite len_filter_filter, (len_filter_perm _ _ _ (suffix_array_perm txt)).
  subst txt. rewrite (pre_count body c q v Hc). lia.
Qed.

(** ** The scan *)

Lemma rows_between (txt q : str) :
  rows_below txt 2 q = rows_below txt 1 q + len (starting_with txt q).
Proof. apply rows_at_one. Qed.

Lemma in_text_of_offset (txt : str) (i : Z) (b : ascii) (x : str) :
  0 <= i < len txt -> slice_from txt i = b :: x -> In b txt.
Proof.
  intros Hi H. rewrite slice_from_skipn in H by lia.
  apply (in_skipn (Z.to_nat i)). rewrite H. now left.
Qed.

Lemma no_match_unknown (txt : str) (c : ascii) (q : str) :
  ~ In c txt -> starting_with txt (c :: q) = [].
Proof.
  intros Hc. apply filter_none. intros i Hi. apply suffix_array_in_range in Hi.
  apply Z.eqb_neq. intros H. cbn [cls] in H.
  destruct (slice_from txt i) as [|b x] eqn:E; [lia|].
  destruct (Z.ltb_spec (ord b) (ord c)); [lia|].
  destruct (Z.ltb_spec (ord c) (ord b)); [lia|].
  apply Hc. assert (c = b) as -> by (apply ord_inj; lia).
  exact (in_text_of_offset txt i b x Hi E).
Qed.

Lemma no_match_extend (txt q a : str) :
  q <> [] -> starting_with txt q = [] -> starting_with txt (a ++ q) = [].
Proof.
  intros Hq Hnone. apply filter_none. intros i Hi.
  pose proof (suffix_array_in_range _ _ Hi) as Hr.
  apply Z.eqb_neq. intros H. apply cls_app in H.
  rewrite slice_from_skipn, skipn_skipn in H by lia.
  destruct (Z.ltb_spec (Z.of_nat (List.length a) + i) (len txt)) as [Hlt|Hge].
  - assert (Hj : In (Z.of_nat (List.length a) + i) (starting_with txt q)).
    { apply filter_In. split.
      - eapply Permutation_in; [symmetry; apply suffix_array_perm|].
        apply in_range. lia.
      - apply Z.eqb_eq. rewrite slice_from_skipn by lia.
        replace (Z.to_nat (Z.of_nat (List.length a) + i))
          with (List.length a + Z.to_nat i)%nat by lia.
        exact H. }
    rewrite Hnone in Hj. contradiction.
  - rewrite skipn_all2 in H by (unfold len in Hge; lia).
    destruct q; [contradiction|]. cbn [cls] in H. lia.
Qed.

Section FromZero.
Variable rank : TRank -> ascii -> Z -> Z.
Variables (txt : str) (idx : FMIndex) (body : str).
Hypothesis rank_from_0 : counts_from_zero rank.
Hypothesis built : FMIndex_init txt = Ok idx.
Hypothesis ends_with_sep : txt = body ++ [sep].

(** A step on a symbol of the text moves the rows of the suffixes that
    start with [q] to the rows of the suffixes that start with [c :: q]. *)
Lemma backtrace_step_known (c : ascii) (q : str) (start end_ : Z) :
  In c txt ->
  c <> sep \/ q = [] ->
  start = rows_below txt 1 q ->
  end_ + 1 = rows_below txt 2 q ->
  backtrace_step_with rank idx c start end_ =
  (rows_below txt 1 (c :: q), rows_below txt 2 (c :: q) - 1).
Proof.
  intros Hin Hc Hs He. destruct (FMIndex_init_inv _ _ built) as (_ & _ & _ & _ & Hr).
  pose proof (proj2 (alphabet_of_built txt idx c built) Hin) as Hk.
  apply dict_get_Some in Hk as (lower & Hl).
  destruct (occ_lex_lower_counts _ _ _ _ built Hl) as (_ & Hlow).
  unfold backtrace_step_with. rewrite Hl, !rank_from_0. unfold rank_from_zero.
  rewrite Hr. cbn [reference].
  rewrite (rows_below_step txt idx body c q 1 built ends_with_sep Hc) by lia.
  rewrite (rows_below_step txt idx body c q 2 built ends_with_sep Hc) by lia.
  rewrite <- Hs, <- He, <- Hlow.
  replace (start - 1 + 1) with start by lia. f_equal; lia.
Qed.

Lemma backtrace_step_with_unknown (c : ascii) (start end_ : Z) :
  ~ In c txt -> backtrace_step_with rank idx c start end_ = (end_ + 1, end_).
Proof.
  intros Hc. unfold backtrace_step_with.
  destruct (dict_get (occ_lex_lower idx) c) as [v|] eqn:E; [|reflexivity].
  exfalso. apply Hc. apply (alphabet_of_built txt idx c built).
  exact (dict_get_in_keys _ _ _ E).
Qed.

(** The scan of [rs] from the rows of [q] ends on the rows of the
    suffixes that start with [rev rs ++ q], or on an empty range when
    there is none. *)
Lemma get_range_loop_with_rows (rs : str) :
  forall (q : str) (start end_ : Z),
    start = rows_below txt 1 q ->
    end_ + 1 = rows_below txt 2 q ->
    match rs with
    | [] => True
    | c :: rs' => (c <> sep \/ q = []) /\ Forall (fun c' => c' <> sep) rs'
    end ->
    let r := get_range_loop_with rank idx rs start end_ in
    (fst r <= snd r /\
     fst r = rows_below txt 1 (rev rs ++ q) /\
     snd r + 1 = rows_below txt 2 (rev rs ++ q))
    \/ (fst r > snd r /\ starting_with txt (rev rs ++ q) = []).
Proof.
  induction rs as [|c rs IH]; intros q start end_ Hs He Hok; cbv zeta.
  - cbn [get_range_loop_with rev app fst snd].
    destruct (Z.le_gt_cases start end_) as [Hle|Hgt]; [left; auto|right].
    split; [lia|]. pose proof (rows_between txt q) as Hb.
    pose proof (len_nonneg (starting_with txt q)) as Hn.
    apply len_nil_iff. lia.
  - destruct Hok as (Hc & Hrest).
    cbn [get_range_loop_with rev]. rewrite <- app_assoc. cbn [app].
    destruct (in_dec ascii_dec c txt) as [Hin|Hnin].
    + rewrite (backtrace_step_known c q start end_ Hin Hc Hs He).
      destruct (Z.gtb_spec (rows_below txt 1 (c :: q)) (rows_below txt 2 (c :: q) - 1))
        as [Hgt|Hle].
      * right. cbn [fst snd]. split; [lia|].
        apply no_match_extend; [discriminate|].
        pose proof (rows_between txt (c :: q)) as Hb.
        pose proof (len_nonneg (starting_with txt (c :: q))) as Hn.
        apply len_nil_iff. lia.
      * apply IH; [reflexivity|lia|].
        destruct rs as [|c' rs']; [exact I|].
        inversion Hrest as [|? ? Hc' Hrest']; subst. split; [now left|assumption].
    + rewrite (backtrace_step_with_unknown c start end_ Hnin).
      destruct (Z.gtb_spec (end_ + 1) end_) as [_|Hle]; [|lia].
      right. cbn [fst snd]. split; [lia|].
      apply no_match_extend; [discriminate|]. now apply no_match_unknown.
Qed.

Lemma len_txt : len txt = len (create_suffix_array_naive txt).
Proof. symmetry. apply length_suffix_array. Qed.

(** The rows [find] returns are the rows whose suffix starts with the
    pattern. *)
Lemma find_with_starting_with (p : str) :
  ~ In sep (removelast p) ->
  find_with rank idx p = starting_with txt p /\
  contains_substring_with rank idx p = negb (len (starting_with txt p) =? 0).
Proof.
  intros Hp. destruct (FMIndex_init_inv _ _ built) as (Ht & Hsa & _).
  assert (Hok : match rev p with
                | [] => True
                | c :: rs' => (c <> sep \/ @nil ascii = []) /\ Forall (fun c' => c' <> sep) rs'
                end).
  { destruct (rev p) as [|c rs'] eqn:E; [exact I|]. split; [now right|].
    assert (Ep : p = rev rs' ++ [c]).
    { rewrite <- (rev_involutive p), E. reflexivity. }
    rewrite Ep, removelast_last in Hp.
    apply Forall_forall. intros c' Hc' ->. apply Hp. now apply in_rev in Hc'. }
  assert (H0 : 0 = rows_below txt 1 []).
  { unfold rows_below. rewrite filter_none; [reflexivity|]. intros i _. reflexivity. }
  assert (H1 : len (text idx) - 1 + 1 = rows_below txt 2 []).
  { unfold rows_below. rewrite Ht, len_txt. replace (len (create_suffix_array_naive txt) - 1 + 1)
      with (len (create_suffix_array_naive txt)) by lia.
    f_equal. symmetry. apply forallb_filter_id. apply forallb_forall. intros i _. reflexivity. }
  pose proof (get_range_loop_with_rows (rev p) [] 0 (len (text idx) - 1) H0 H1 Hok) as Hloop.
  cbv zeta in Hloop. rewrite rev_involutive, app_nil_r in Hloop.
  unfold find_with, contains_substring_with, get_range_with.
  destruct (get_range_loop_with rank idx (rev p) 0 (len (text idx) - 1)) as [s e].
  cbn [fst snd] in Hloop.
  pose proof (rows_between txt p) as Hb.
  pose proof (len_nonneg (starting_with txt p)) as Hn.
  destruct Hloop as [(Hle & Hs & He)|(Hgt & Hnone)].
  - destruct (Z.ltb_spec s (e + 1)); [|lia].
    rewrite Hsa, Hs, He. split; [apply slice_rows_at_one|].
    destruct (Z.eqb_spec (len (starting_with txt p)) 0); [lia|reflexivity].
  - destruct (Z.ltb_spec s (e + 1)); [lia|].
    rewrite Hnone. split; reflexivity.
Qed.
End FromZero.

(** ** [find] against a scan of the text *)

Lemma filter_perm {A : Type} (f : A -> bool) (l l' : list A) :
  Permutation l l' -> Permutation (filter f l) (filter f l').
Proof.
  induction 1 as [|x l l' _ IH|x y l|l l' l'' _ IH1 _ IH2]; cbn [filter].
  - constructor.
  - destruct (f x); [now constructor|assumption].
  - destruct (f x), (f y); try reflexivity. apply perm_swap.
  - now transitivity (filter f l').
Qed.

Lemma slice_is_prefix (txt p : str) (i : Z) :
  0 <= i < len txt ->
  slice txt i (i + len p) = firstn (List.length p) (slice_from txt i).
Proof.
  intros Hi. pose proof (len_nonneg p) as Hp.
  rewrite slice_from_skipn by lia. unfold slice, slice_bound.
  destruct (Z.ltb_spec i 0); [lia|]. destruct (Z.ltb_spec (i + len p) 0); [lia|].
  rewrite (Z.min_l i) by lia.
  destruct (Z.le_gt_cases (i + len p) (len txt)) as [Hle|Hgt].
  - rewrite Z.min_l by lia. f_equal. unfold len. lia.
  - rewrite Z.min_r by lia.
    rewrite !firstn_all2; [reflexivity| |]; rewrite length_skipn; unfold len in *; lia.
Qed.

Lemma starting_with_occurrences (txt p : str) :
  Permutation (starting_with txt p) (occurrences txt p).
Proof.
  unfold starting_with, occurrences.
  transitivity (filter (fun i => cls p (slice_from txt i) =? 1) (range 0 (len txt))).
  { apply filter_perm, suffix_array_perm. }
  rewrite (filter_ext_in (fun i => cls p (slice_from txt i) =? 1)
             (fun i => str_eqb (slice txt i (i + len p)) p)); [reflexivity|].
  intros i Hi. apply in_range in Hi. rewrite slice_is_prefix by assumption.
  unfold str_eqb.
  destruct (list_eq_dec ascii_dec (firstn (List.length p) (slice_from txt i)) p) as [E|E].
  - apply Z.eqb_eq. now apply cls_prefix.
  - apply Z.eqb_neq. intros H. apply E. now apply cls_prefix.
Qed.

(** The functions over a rank, at the rank the spec words, are the
    functions above. *)
Lemma get_range_loop_with_rank_at_row (self : FMIndex) (rs : str) (start end_ : Z) :
  get_range_loop_with rank_at_row self rs start end_ = get_range_loop self rs start end_.
Proof.
  revert start end_. induction rs as [|c rs IH]; intros start end_; [reflexivity|].
  cbn [get_range_loop_with get_range_loop].
  change (backtrace_step_with rank_at_row self c start end_)
    with (backtrace_step self c start end_).
  destruct (backtrace_step self c start end_) as [s' e'].
  destruct (s' >? e'); [reflexivity|apply IH].
Qed.

Lemma find_with_rank_at_row (self : FMIndex) (p : str) :
  get_range_with rank_at_row self p = get_range self p /\
  find_with rank_at_row self p = find self p /\
  contains_substring_with rank_at_row self p = contains_substring self p.
Proof.
  unfold find_with, find, contains_substring_with, contains_substring,
    get_range_with, get_range.
  rewrite get_range_loop_with_rank_at_row. auto.
Qed.

Lemma get_prefix_overlaps_with_rank_at_row (self : FMIndex) (p : str) (m : Z) :
  get_prefix_overlaps_with rank_at_row self p m = get_prefix_overlaps self p m.
Proof.
  unfold get_prefix_overlaps_with, get_prefix_overlaps.
  assert (H : forall n rs s e k acc,
            get_prefix_overlaps_loop_with rank_at_row self n m rs s e k acc
            = get_prefix_overlaps_loop self n m rs s e k acc).
  { intros n. induction rs as [|c rs IH]; intros s e k acc; [reflexivity|].
    cbn [get_prefix_overlaps_loop_with get_prefix_overlaps_loop].
    change (backtrace_step_with rank_at_row self c s e) with (backtrace_step self c s e).
    destruct (backtrace_step self c s e) as [s' e'].
    destruct (s' >? e'); [reflexivity|].
    destruct ((m <=? k + 1) && (k + 1 <? n)); [|apply IH].
    destruct (elements_preceeded_by_sep self s' e') as [ov|err]; cbn [bind]; [|reflexivity].
    destruct (mapM _ ov) as [ov'|err]; cbn [bind]; [|reflexivity].
    apply IH. }
  apply H.
Qed.

(** Two ranks that answer alike give the same overlaps. *)
Lemma get_prefix_overlaps_with_ext (rank rank' : TRank -> ascii -> Z -> Z)
    (self : FMIndex) (p : str) (m : Z) :
  (forall r c row, rank r c row = rank' r c row) ->
  get_prefix_overlaps_with rank self p m = get_prefix_overlaps_with rank' self p m.
Proof.
  intros Hr. unfold get_prefix_overlaps_with.
  assert (H : forall n rs s e k acc,
            get_prefix_overlaps_loop_with rank self n m rs s e k acc
            = get_prefix_overlaps_loop_with rank' self n m rs s e k acc).
  { intros n. induction rs as [|c rs IH]; intros s e k acc; [reflexivity|].
    cbn [get_prefix_overlaps_loop_with].
    assert (E : backtrace_step_with rank self c s e = backtrace_step_with rank' self c s e).
    { unfold backtrace_step_with. now rewrite !Hr. }
    rewrite E. destruct (backtrace_step_with rank' self c s e) as [s' e'].
    destruct (s' >? e'); [reflexivity|].
    destruct ((m <=? k + 1) && (k + 1 <? n)); [|apply IH].
    destruct (elements_preceeded_by_sep self s' e') as [ov|err]; cbn [bind]; [|reflexivity].
    destruct (mapM _ ov) as [ov'|err]; cbn [bind]; [|reflexivity].
    apply IH. }
  apply H.
Qed.

(** C1, as stated: with the rank numbered from 0, over the text A$ the
    pattern $A occurs nowhere, yet [find] returns offset 1 and
    [contains_substring] answers true: at row 0 the symbol read before
    the suffix A$ of offset 0 is [text[-1]], the final sentinel.  Over
    ACGTACGA$TACGAGG$ the pattern $ACG occurs nowhere either, and
    [find] returns offset 16, that of the final sentinel. *)
Lemma find_reports_wrapped_matches :
  (exists idx, FMIndex_init (chars "A$") = Ok idx /\
     occurrences (chars "A$") (chars "$A") = [] /\
     find_with rank_from_zero idx (chars "$A") = [1] /\
     contains_substring_with rank_from_zero idx (chars "$A") = true) /\
  (exists idx, FMIndex_init (chars "ACGTACGA$TACGAGG$") = Ok idx /\
     occurrences (chars "ACGTACGA$TACGAGG$") (chars "$ACG") = [] /\
     find_with rank_from_zero idx (chars "$ACG") = [16]).
Proof.
  split; eexists; (split; [vm_compute; reflexivity|]);
    repeat split; vm_compute; reflexivity.
Qed.

(** C1, amended: with a rank structure that numbers the occurrences of a
    symbol from 0, for every text that ends with the sentinel and every
    pattern in which the sentinel stands nowhere before the last
    position, [find] returns exactly the offsets [i] with
    [text[i:i+len(p)] == p], each once, and [contains_substring] is true
    exactly when the pattern occurs. *)
Theorem find_returns_the_occurrences (rank : TRank -> ascii -> Z -> Z)
    (txt : str) (idx : FMIndex) (p : str) :
  counts_from_zero rank ->
  FMIndex_init txt = Ok idx ->
  getitem txt (-1) = Ok sep ->
  ~ In sep (removelast p) ->
  Permutation (find_with rank idx p) (occurrences txt p) /\
  (contains_substring_with rank idx p = true <-> occurrences txt p <> []).
Proof.
  intros Hrank Hidx Hlast Hp.
  destruct (getitem_last_inv _ _ Hlast) as (body & Hbody).
  destruct (find_with_starting_with rank txt idx body Hrank Hidx Hbody p Hp) as (Hf & Hc).
  pose proof (starting_with_occurrences txt p) as Hperm.
  split; [now rewrite Hf|].
  rewrite Hc. split.
  - intros H E. rewrite E in Hperm. apply Permutation_sym, Permutation_nil in Hperm.
    rewrite Hperm in H. discriminate H.
  - intros H. destruct (Z.eqb_spec (len (starting_with txt p)) 0) as [E|E]; [|reflexivity].
    exfalso. apply H. apply len_nil_iff in E. rewrite E in Hperm.
    now apply Permutation_nil.
Qed.

Lemma find_returns_the_occurrences_witness :
  exists idx, FMIndex_init (chars "ACGTACGA$TACGAGG$") = Ok idx /\
    occurrences (chars "ACGTACGA$TACGAGG$") (chars "ACGA") = [4; 10] /\
    find_with rank_from_zero idx (chars "ACGA") = [4; 10] /\
    Permutation (find_with rank_from_zero idx (chars "ACGA"))
      (occurrences (chars "ACGTACGA$TACGAGG$") (chars "ACGA")) /\
    (contains_substring_with rank_from_zero idx (chars "ACGA") = true <->
     occurrences (chars "ACGTACGA$TACGAGG$") (chars "ACGA") <> []).
Proof.
  eexists. split; [vm_compute; reflexivity|].
  split; [vm_compute; reflexivity|]. split; [vm_compute; reflexivity|].
  apply (find_returns_the_occurrences rank_from_zero (chars "ACGTACGA$TACGAGG$")).
  - intros r c row. reflexivity.
  - reflexivity.
  - reflexivity.
  - cbn. intros H. repeat (destruct H as [H|H]; [discriminate H|]). exact H.
Defined.

(** C2, as stated: the last 4 symbols of ACGTACGA, ACGA, are not the
    first 4 symbols of TACGAGG, TACG, and the call reports no pair of
    overlap length 4, with the rank numbered from 0 as with the rank the
    spec words. *)
Lemma overlap_scenario_has_no_length_4 :
  exists idx, FMIndex_init (chars "ACGTACGA$TACGAGG$") = Ok idx /\
    suffix_of 4 (chars "ACGTACGA") = chars "ACGA" /\
    prefix_of 4 (chars "TACGAGG") = chars "TACG" /\
    (forall l, get_prefix_overlaps_with rank_from_zero idx (chars "ACGTACGA") 3 = Ok l ->
               ~ In (chars "TACGAGG", 4) l) /\
    (forall l, get_prefix_overlaps idx (chars "ACGTACGA") 3 = Ok l ->
               ~ In (chars "TACGAGG", 4) l).
Proof.
  eexists. split; [vm_compute; reflexivity|].
  split; [reflexivity|]. split; [reflexivity|]. split.
  - intros l Hl. vm_compute in Hl. injection Hl as <-.
    intros [H|[]]. discriminate H.
  - intros l Hl. vm_compute in Hl. injection Hl as <-. intros [].
Qed.

(** C2, amended: for the text ACGTACGA$TACGAGG$, with a rank structure
    that numbers occurrences from 0, [get_prefix_overlaps "ACGTACGA" 3]
    returns the pair (TACGAGG, k) for every k in [3, 8) such that the
    last k symbols of ACGTACGA equal the first k symbols of TACGAGG;
    that is the case for k = 5 only, the result is the single pair
    (TACGAGG, 5), and the pair with overlap length 4 is not in it. *)
Theorem overlap_scenario (rank : TRank -> ascii -> Z -> Z) :
  counts_from_zero rank ->
  exists idx l,
    FMIndex_init (chars "ACGTACGA$TACGAGG$") = Ok idx /\
    get_prefix_overlaps_with rank idx (chars "ACGTACGA") 3 = Ok l /\
    (forall k, 3 <= k < 8 ->
       suffix_of k (chars "ACGTACGA") = prefix_of k (chars "TACGAGG") ->
       In (chars "TACGAGG", k) l) /\
    (forall k, 3 <= k < 8 ->
       (suffix_of k (chars "ACGTACGA") = prefix_of k (chars "TACGAGG") <-> k = 5)) /\
    l = [(chars "TACGAGG", 5)] /\
    ~ In (chars "TACGAGG", 4) l.
Proof.
  intros Hrank.
  assert (Hk : forall k, 3 <= k < 8 ->
             (suffix_of k (chars "ACGTACGA") = prefix_of k (chars "TACGAGG") <-> k = 5)).
  { intros k Hk.
    assert (Hcases : k = 3 \/ k = 4 \/ k = 5 \/ k = 6 \/ k = 7) by lia.
    destruct Hcases as [->|[->|[->|[->| ->]]]]; vm_compute;
      split; intros E; try reflexivity; discriminate E. }
  eexists. exists [(chars "TACGAGG", 5)]. split; [vm_compute; reflexivity|].
  split; [|split; [|split; [exact Hk|split; [reflexivity|]]]].
  - rewrite (get_prefix_overlaps_with_ext rank rank_from_zero _ _ _ Hrank).
    vm_compute. reflexivity.
  - intros k Hr E. apply (Hk k Hr) in E. subst k. left. reflexivity.
  - intros [H|[]]. discriminate H.
Qed.

Lemma overlap_scenario_witness :
  exists idx l,
    FMIndex_init (chars "ACGTACGA$TACGAGG$") = Ok idx /\
    get_prefix_overlaps_with rank_from_zero idx (chars "ACGTACGA") 3 = Ok l /\
    (forall k, 3 <= k < 8 ->
       suffix_of k (chars "ACGTACGA") = prefix_of k (chars "TACGAGG") ->
       In (chars "TACGAGG", k) l) /\
    (forall k, 3 <= k < 8 ->
       (suffix_of k (chars "ACGTACGA") = prefix_of k (chars "TACGAGG") <-> k = 5)) /\
    l = [(chars "TACGAGG", 5)] /\
    ~ In (chars "TACGAGG", 4) l.
Proof.
  apply (overlap_scenario rank_from_zero). intros r c row. reflexivity.
Defined.
